(** * CTC beam search (ctc_beam_search.ts): a shallow embedding

    The TypeScript module decodes a matrix of per-time-step log
    probabilities with a beam search.  Its classes are embedded one by
    one, in the order of the source file: [Vocabulary], [logSumExp],
    [BeamEntry], [BeamList] and [CTCBeamSearch].

    JavaScript numbers are kept behind the interface [JSNumber], which
    lists exactly the operations the module applies to a probability:
    [+], [-], [=== 0], [>], [Math.exp] and [Math.log1p].  Every general
    theorem is proved for an arbitrary implementation of the interface;
    concrete runs use [Float64], the IEEE 754 binary64 numbers of the
    kernel.  Label indices ([cIndex], [_last], [blankIndex]) and the
    beam width are integers in the source and are kept in [Z]. *)

From Stdlib Require Import ZArith Floats Sorted.
From stdpp Require Import base tactics option list gmap strings sorting.

Local Open Scope Z_scope.
#[local] Set Warnings "-clear-no-such-hyp".

(** ** JavaScript numbers *)

(** The operations of a JavaScript number that the module uses.
    [NaN] also stands for [undefined] read from an array out of its
    range: the module only ever feeds such a value to [+], [-], [>] or
    [=== 0], all of which convert [undefined] to [NaN]. *)
Class JSNumber := {
  num : Type;
  zero : num;                       (* the literal 0 *)
  NaN : num;
  num_add : num → num → num;        (* a + b *)
  num_sub : num → num → num;        (* a - b *)
  strict_eq : num → num → bool;     (* a === b *)
  gt : num → num → bool;            (* a > b *)
  Math_exp : num → num;
  Math_log1p : num → num;
  (* 0 === 0 *)
  strict_eq_zero : strict_eq zero zero = true
}.

(** *** The binary64 instance

    [+], [-], [===] and [>] are the kernel's IEEE 754 operations.
    ECMAScript leaves [Math.exp] and [Math.log1p] implementation
    approximated and fixes only their values at NaN, the zeros, the
    infinities and -1; those are reproduced exactly, and the other
    arguments are served by series. *)
Module Math.

(* 1 + y/k (1 + y/(k+1) (...)) unrolled from the innermost term. *)
Fixpoint exp_horner (fuel : nat) (k y acc : float) : float :=
  match fuel with
  | O => acc
  | S fuel' => exp_horner fuel' (k - 1)%float y (1 + y / k * acc)%float
  end.

Fixpoint square_times (n : nat) (x : float) : float :=
  match n with
  | O => x
  | S n' => square_times n' (x * x)%float
  end.

Definition exp (x : float) : float :=
  if PrimFloat.is_nan x then nan
  else if (0x1.62e42fefa39efp+9 <? x)%float then infinity
  else if (x <? -0x1.74910d52d3052p+9)%float then 0%float
  else square_times 10 (exp_horner 20 20 (x / 1024)%float 1).

(* sum of w^i / (2 i + 1), for the series of atanh *)
Fixpoint atanh_horner (fuel : nat) (d w acc : float) : float :=
  match fuel with
  | O => acc
  | S fuel' => atanh_horner fuel' (d - 2)%float w (1 / d + w * acc)%float
  end.

(* log1p y = 2 * log1p (sqrt (1 + y) - 1), until |y| <= 1/2 *)
Fixpoint log1p_reduce (fuel : nat) (y scale : float) : float :=
  match fuel with
  | O => (scale * y)%float
  | S fuel' =>
      if (0.5 <? PrimFloat.abs y)%float
      then log1p_reduce fuel' (y / (PrimFloat.sqrt (1 + y) + 1))%float
                        (2 * scale)%float
      else let z := (y / (2 + y))%float in
           (scale * (2 * z * atanh_horner 21 41 (z * z) 0))%float
  end.

Definition log1p (y : float) : float :=
  if PrimFloat.is_nan y then nan
  else if (y <? -1)%float then nan
  else if (y =? -1)%float then neg_infinity
  else if (y =? infinity)%float then infinity
  else if (y =? 0)%float then y
  else log1p_reduce 16 y 1.

End Math.

#[export] Instance Float64 : JSNumber := {|
  num := float;
  zero := 0%float;
  NaN := nan;
  num_add := PrimFloat.add;
  num_sub := PrimFloat.sub;
  strict_eq := PrimFloat.eqb;
  gt := fun a b => PrimFloat.ltb b a;
  Math_exp := Math.exp;
  Math_log1p := Math.log1p;
  strict_eq_zero := eq_refl
|}.

(** ** Completions

    The module has no [throw] statement.  The only exception it can
    raise is the [RangeError] of an assignment to [length], in
    [BeamList.sort].  [TypeError] is for a caller that reads a property
    of [undefined], as the program of the README does on an empty
    result. *)
Inductive exn := RangeError | TypeError.

Inductive completion (A : Type) :=
  | Normal (a : A)
  | Throw (e : exn).
Arguments Normal {A} a.
Arguments Throw {A} e.

(** ** Vocabulary (source lines 25-72) *)

Record Vocabulary := mkVocabulary {
  _charToIndex : gmap string Z;
  _indexToChar : gmap Z string;
  _blankIndex : Z
}.

(** The two tables are plain objects, so they inherit the properties
    of [Object.prototype].  A read of one of these names from an object
    without such a key of its own gives the inherited function or
    object; an assignment of a number to ["__proto__"] is taken by the
    inherited setter, which ignores it, and adds no key. *)
Definition Object_prototype : list string :=
  ["constructor"; "hasOwnProperty"; "isPrototypeOf"; "propertyIsEnumerable";
   "toLocaleString"; "toString"; "valueOf"; "__proto__";
   "__defineGetter__"; "__defineSetter__"; "__lookupGetter__";
   "__lookupSetter__"].

(* object[k] = v, for a number v *)
Definition set_property (k : string) (v : Z) (object : gmap string Z)
  : gmap string Z :=
  if bool_decide (k = "__proto__") then object else <[k := v]> object.

(* One turn of the loop of the constructor. *)
Definition new_Vocabulary_entry (this : Vocabulary) (kv : string * Z)
  : Vocabulary :=
  let '(k, v) := kv in
  {| _charToIndex := set_property k v (_charToIndex this);
     _indexToChar := <[v := k]> (_indexToChar this);
     _blankIndex := _blankIndex this |}.

(** The constructor.  [charToIndex] is the argument object as
    [Object.entries] lists it, one pair per key. *)
Definition new_Vocabulary (charToIndex : list (string * Z)) (blankIndex : Z)
  : completion Vocabulary :=
  Normal
    (fold_left new_Vocabulary_entry charToIndex
       {| _charToIndex := ∅; _indexToChar := ∅; _blankIndex := blankIndex |}).

(** constants.ts *)
Definition EN_BLANK_INDEX : Z := 28.
Definition EN_CHARS : string := " abcdefghijklmnopqrstuvwxyz'".

Fixpoint chars_from (index : Z) (s : string) : list (string * Z) :=
  match s with
  | EmptyString => []
  | String c s' => (String c EmptyString, index) :: chars_from (index + 1) s'
  end.

Definition EN_CHAR_MAP : list (string * Z) := chars_from 0 EN_CHARS.

Definition EN_VOCABULARY : completion Vocabulary :=
  new_Vocabulary EN_CHAR_MAP EN_BLANK_INDEX.

Section Model.
Context {N : JSNumber}.

(** ** logSumExp (source lines 78-92) *)

Definition logSumExp (log1 log2 : num) : num :=
  if strict_eq log1 zero then log2
  else if strict_eq log2 zero then log1
  else
    let rev :=
      if gt log1 log2
      then num_add log1 (Math_log1p (Math_exp (num_sub log2 log1)))
      else num_add log2 (Math_log1p (Math_exp (num_sub log1 log2))) in
    rev.

(** ** BeamEntry (source lines 97-236) *)

(** [_string] and [_parent] are [undefined] until assigned.  A
    [_parent] is read only for its [_last], which no code assigns after
    the constructor, so the reference is kept as the parent's value. *)
#[warnings="-register-all"]
Inductive BeamEntry := mkBeamEntry {
  seq : list Z;
  pTotal : num;
  pBlank : num;
  pNonBlank : num;
  _last : Z;
  _string : option string;
  _parent : option BeamEntry
}.

(* Assignments to one field. *)
Definition set_pTotal (v : num) (e : BeamEntry) : BeamEntry :=
  mkBeamEntry (seq e) v (pBlank e) (pNonBlank e) (_last e) (_string e) (_parent e).
Definition set_pBlank (v : num) (e : BeamEntry) : BeamEntry :=
  mkBeamEntry (seq e) (pTotal e) v (pNonBlank e) (_last e) (_string e) (_parent e).
Definition set_pNonBlank (v : num) (e : BeamEntry) : BeamEntry :=
  mkBeamEntry (seq e) (pTotal e) (pBlank e) v (_last e) (_string e) (_parent e).
Definition set_last (v : Z) (e : BeamEntry) : BeamEntry :=
  mkBeamEntry (seq e) (pTotal e) (pBlank e) (pNonBlank e) v (_string e) (_parent e).
Definition set_string (v : string) (e : BeamEntry) : BeamEntry :=
  mkBeamEntry (seq e) (pTotal e) (pBlank e) (pNonBlank e) (_last e) (Some v) (_parent e).
Definition set_parent (v : BeamEntry) (e : BeamEntry) : BeamEntry :=
  mkBeamEntry (seq e) (pTotal e) (pBlank e) (pNonBlank e) (_last e) (_string e) (Some v).

(* this.seq[this.seq.length - 1], guarded by this.seq.length > 0 *)
Definition _calculateLast (this : BeamEntry) : BeamEntry :=
  match last (seq this) with
  | Some l => set_last l this
  | None => this
  end.

(* The truth value of the optional argument [last]: [undefined] and 0
   are falsy, every other integer is truthy. *)
Definition truthy (last : option Z) : option Z :=
  match last with
  | Some l => if l =? 0 then None else Some l
  | None => None
  end.

Definition new_BeamEntry (seq : list Z) (last : option Z) : BeamEntry :=
  let this := mkBeamEntry seq zero zero zero (-1) None None in
  match truthy last with
  | Some l => set_last l this
  | None => _calculateLast this
  end.

(* vocabulary.indexToChar[index]; join('') prints undefined as ''. *)
Definition index_char (vocabulary : Vocabulary) (index : Z) : string :=
  default EmptyString (_indexToChar vocabulary !! index).

Definition join (l : list string) : string := foldr String.append EmptyString l.

(** [convertToStr] fills the cache [_string] on its first call: it
    returns the entry as it is afterwards, and the string. *)
Definition convertToStr (this : BeamEntry) (vocabulary : Vocabulary)
  : BeamEntry * string :=
  match _string this with
  | None =>
      let s := join (map (index_char vocabulary) (seq this)) in
      (set_string s this, s)
  | Some s => (this, s)
  end.

(* row[i]: [undefined] (here [NaN]) out of the row's range *)
Definition row_at (row : list num) (i : Z) : num :=
  if i <? 0 then NaN else default NaN (row !! Z.to_nat i).

Definition parent_has_last (this : BeamEntry) : bool :=
  match _parent this with
  | Some parent => _last parent =? _last this
  | None => false
  end.

Definition copy (this : BeamEntry) (row : list num) (blank : num)
  : option BeamEntry :=
  if _last this =? -1 then None
  else
    let rev := new_BeamEntry (seq this) (Some (_last this)) in
    let rev :=
      if parent_has_last this
      then set_pBlank (num_add (pTotal this) blank) rev
      else set_pBlank (num_add (pNonBlank this) blank) rev in
    let rev := set_pNonBlank (num_add (pNonBlank this) (row_at row (_last this))) rev in
    let rev := set_pTotal (logSumExp (pNonBlank rev) (pBlank rev)) rev in
    let rev := set_parent this rev in
    Some rev.

Definition extend (this : BeamEntry) (index : Z) (prob pBlank' : num)
  : option BeamEntry :=
  let pNewNonBlank := zero in
  let newSeq : list Z := [] in
  let newIndex := index in
  let assigned : option (num * list Z * num * Z) :=
    if (_last this =? -1) && (index =? 0) then
      (* case 1 *)
      let pNewTotal := num_add (pTotal this) (logSumExp prob pBlank') in
      Some (pNewNonBlank, newSeq, pNewTotal, -1)
    else if index =? _last this then
      if strict_eq (pBlank this) zero then
        (* case 2 *)
        None
      else
        (* case 3 *)
        let pNewNonBlank := num_add (pBlank this) prob in
        Some (pNewNonBlank, seq this ++ [index], pNewNonBlank, newIndex)
    else
      (* case 4 *)
      let pNewNonBlank := num_add (pTotal this) prob in
      Some (pNewNonBlank, seq this ++ [index], pNewNonBlank, newIndex) in
  match assigned with
  | None => None
  | Some (pNewNonBlank, newSeq, pNewTotal, newIndex) =>
      let rev := new_BeamEntry newSeq (Some newIndex) in
      let rev := set_pNonBlank pNewNonBlank rev in
      let rev := set_pTotal pNewTotal rev in
      let rev := set_parent this rev in
      Some rev
  end.

(** ** BeamList (source lines 243-305) *)

(** [_beams] and [_beamList] hold references to the same entries, and
    [add] assigns to the fields of an entry it finds through [_beams].
    [_beamList] is therefore the store of the entries, and [_beams] maps
    a label to the position of its entry there.  [_beams] starts as
    the object [{}]: for a label that is a name of [Object_prototype]
    the read [this._beams[label]] gives the inherited value, which is
    truthy, so [add] assigns the three probabilities to that built-in
    object and the pool stays as it is. *)
Record BeamList := mkBeamList {
  _size : Z;
  _beams : gmap string nat;
  _beamList : list BeamEntry
}.

Definition new_BeamList (size : Z) : BeamList :=
  {| _size := size; _beamList := []; _beams := ∅ |}.

(* The three assignments of the branch "merge probability". *)
Definition merge (beam existing : BeamEntry) : BeamEntry :=
  let existing := set_pBlank (logSumExp (pBlank beam) (pBlank existing)) existing in
  let existing := set_pNonBlank (logSumExp (pNonBlank beam) (pNonBlank existing)) existing in
  let existing := set_pTotal (logSumExp (pTotal beam) (pTotal existing)) existing in
  existing.

Definition add (this : BeamList) (beam : option BeamEntry) (vocab : Vocabulary)
  : BeamList :=
  match beam with
  | None => this
  | Some beam =>
      let '(beam, label) := convertToStr beam vocab in
      match _beams this !! label with
      | Some existing =>
          {| _size := _size this;
             _beams := _beams this;
             _beamList := alter (merge beam) existing (_beamList this) |}
      | None =>
          if bool_decide (label ∈ Object_prototype) then this
          else
            {| _size := _size this;
               _beams := <[label := length (_beamList this)]> (_beams this);
               _beamList := _beamList this ++ [beam] |}
      end
  end.

(* (a, b) => b.pTotal - a.pTotal *)
Definition comparefn (a b : BeamEntry) : num := num_sub (pTotal b) (pTotal a).

(* comparefn(a, b) > 0: [a] is to come after [b]. *)
Definition sorts_after (a b : BeamEntry) : bool := gt (comparefn a b) zero.

(** [Array.prototype.sort], as a stable insertion sort.  ECMAScript
    requires the sort to be stable and fixes its result when the
    comparator is consistent on the elements; for other comparators the
    order is implementation defined, and this is one such order. *)
Fixpoint sort_insert (x : BeamEntry) (l : list BeamEntry) : list BeamEntry :=
  match l with
  | [] => [x]
  | y :: l' => if sorts_after x y then y :: sort_insert x l' else x :: l
  end.

Definition Array_sort (l : list BeamEntry) : list BeamEntry :=
  foldr sort_insert [] l.

(** An assignment to [length]: the array is cut, or grows by empty
    slots ([None]), which [forEach] skips. *)
Definition set_length {A} (n : nat) (a : list (option A)) : list (option A) :=
  take n a ++ replicate (n - length a) None.

Definition valid_length (n : Z) : bool := (0 <=? n) && (n <? 2 ^ 32).

Definition sort (this : BeamList) : completion (list (option BeamEntry)) :=
  let rev := Some <$> Array_sort (_beamList this) in
  if valid_length (_size this)
  then Normal (set_length (Z.to_nat (_size this)) rev)
  else Throw RangeError.

(** ** CTCBeamSearch (source lines 310-373) *)

Record CTCBeamSearch := mkCTCBeamSearch {
  _vocabulary : Vocabulary;
  _vocabSize : nat;
  (* the field _blankIndex of CTCBeamSearch *)
  search_blankIndex : Z
}.

Definition new_CTCBeamSearch (vocabulary : Vocabulary) : CTCBeamSearch :=
  {| _vocabulary := vocabulary;
     _vocabSize := size (_charToIndex vocabulary);
     search_blankIndex := _blankIndex vocabulary |}.

(* The body of beams.forEach: the copy case, then the loop of extends. *)
Definition expand (this : CTCBeamSearch) (row : list num)
    (allCandidates : BeamList) (beam : BeamEntry) : BeamList :=
  let allCandidates :=
    add allCandidates (copy beam row (row_at row (search_blankIndex this)))
        (_vocabulary this) in
  fold_left
    (fun allCandidates cIndex =>
       add allCandidates
           (extend beam cIndex (row_at row cIndex)
                   (row_at row (search_blankIndex this)))
           (_vocabulary this))
    (seqZ 0 (Z.of_nat (length row) - 1))
    allCandidates.

(* The body of logProbs.forEach: one time step. *)
Definition step (this : CTCBeamSearch) (width : Z)
    (beams : list (option BeamEntry)) (row : list num)
  : completion (list (option BeamEntry)) :=
  let allCandidates := new_BeamList width in
  let allCandidates :=
    fold_left
      (fun allCandidates slot =>
         match slot with
         | Some beam => expand this row allCandidates beam
         | None => allCandidates
         end)
      beams allCandidates in
  sort allCandidates.

Fixpoint search_from (this : CTCBeamSearch) (width : Z)
    (beams : list (option BeamEntry)) (logProbs : list (list num))
  : completion (list (option BeamEntry)) :=
  match logProbs with
  | [] => Normal beams
  | row :: logProbs' =>
      match step this width beams row with
      | Normal beams' => search_from this width beams' logProbs'
      | Throw e => Throw e
      end
  end.

Definition search (this : CTCBeamSearch) (logProbs : list (list num))
    (width : Z) : completion (list (option BeamEntry)) :=
  let beams := [Some (new_BeamEntry [] None)] in
  search_from this width beams logProbs.

End Model.

Section Notions.
Context {N : JSNumber}.

(** ** The notions of the statements *)

(** Two numbers that [===] and [>] treat as the reals do: both zero
    only if equal, never each greater than the other, and equal when
    neither is greater.  Every pair of log-probabilities is such a
    pair; a NaN, or the zeros 0 and -0 together, are not. *)
Definition ordered (a b : num) : Prop :=
  (strict_eq a zero = true → strict_eq b zero = true → a = b) ∧
  (gt a b = true → gt b a = false) ∧
  (gt a b = false → gt b a = false → a = b).

(** What [_last] is to be for a sequence: its final element, and -1
    for the empty sequence. *)
Definition expected_last (s : list Z) : Z := default (-1) (last s).

(** The entries a search can hold: the root, a copy or extend
    successor of one of them (the loop of [search] counts [cIndex] up
    from 0), one whose label has been cached by [convertToStr], and one
    that [add] has merged another into. *)
Inductive produced : BeamEntry → Prop :=
  | produced_root : produced (new_BeamEntry [] None)
  | produced_copy this row blank r :
      produced this → copy this row blank = Some r → produced r
  | produced_extend this index prob blank r :
      produced this → 0 ≤ index →
      extend this index prob blank = Some r → produced r
  | produced_convertToStr this vocabulary :
      produced this → produced (convertToStr this vocabulary).1
  | produced_merge beam existing :
      produced beam → produced existing → produced (merge beam existing).

(** A pool after [add] was called on each element of [inputs] in turn
    ([None] is the [undefined] that copy and extend may return). *)
Definition feed (pool : BeamList) (inputs : list (option BeamEntry))
    (vocab : Vocabulary) : BeamList :=
  fold_left (fun pool beam => add pool beam vocab) inputs pool.

(* The label strings of the candidates fed to a pool. *)
Definition labels_seen (vocab : Vocabulary) (inputs : list (option BeamEntry))
  : list string :=
  (fun beam => (convertToStr beam vocab).2) <$> omap id inputs.

(** The comparator is consistent on the entries [l] (ECMAScript
    23.1.3.30.1): its sign is that of the order of the totals, which is
    asymmetric, and whose complement is transitive.  It is so on
    log-probabilities; a NaN among the totals breaks it. *)
Definition consistent (l : list BeamEntry) : Prop :=
  ∀ x y z, x ∈ l → y ∈ l → z ∈ l →
    sorts_after x y = gt (pTotal y) (pTotal x) ∧
    (gt (pTotal y) (pTotal x) = true → gt (pTotal x) (pTotal y) = false) ∧
    (gt (pTotal y) (pTotal x) = false → gt (pTotal z) (pTotal y) = false →
     gt (pTotal z) (pTotal x) = false).

(* No entry has a greater total than one before it. *)
Definition non_increasing (l : list BeamEntry) : Prop :=
  ∀ (i j : nat) x y, (i < j)%nat → l !! i = Some x → l !! j = Some y →
    gt (pTotal y) (pTotal x) = false.

Definition at_least (x y : BeamEntry) : Prop := gt (pTotal y) (pTotal x) = false.

(** [consistent], as a test. *)
Definition consistentb (l : list BeamEntry) : bool :=
  forallb (fun x => forallb (fun y => forallb (fun z =>
    Bool.eqb (sorts_after x y) (gt (pTotal y) (pTotal x))
    && implb (gt (pTotal y) (pTotal x)) (negb (gt (pTotal x) (pTotal y)))
    && implb (negb (gt (pTotal y) (pTotal x)) && negb (gt (pTotal z) (pTotal y)))
             (negb (gt (pTotal z) (pTotal x)))) l) l) l.

(* The label strings that make a member of a pool: those seen, less
   the names every object inherits. *)
Definition member_labels (labels : list string) : gset string :=
  list_to_set labels ∖ list_to_set Object_prototype.

(** [_beams] has a key for every member label seen, and [_beamList] an
    entry for every key. *)
Definition pool_inv (pool : BeamList) (seen : list string) : Prop :=
  dom (_beams pool) = member_labels seen ∧
  length (_beamList pool) = size (_beams pool).

(* The label sequences of a beam, slot by slot. *)
Definition sequences (beams : list (option BeamEntry))
  : list (option (list Z)) :=
  (fun slot : option BeamEntry => seq <$> slot) <$> beams.

Definition slots (P : BeamEntry → Prop) (beams : list (option BeamEntry)) : Prop :=
  ∀ e, Some e ∈ beams → P e.

(** *** A search that cuts nothing

    The candidates of a time step do not depend on the width; the width
    only cuts or pads the sorted array.  [unbounded_from] is the search
    without the assignment to [length], and [fits] tells whether a
    width is never exceeded, so that nothing is cut. *)

(* Two pools with the same members, whatever their capacities. *)
Definition same_members (p q : BeamList) : Prop :=
  _beams p = _beams q ∧ _beamList p = _beamList q.

(* The pool of a time step, before it is sorted. *)
Definition pool_after (this : CTCBeamSearch) (width : Z)
    (beams : list (option BeamEntry)) (row : list num) : BeamList :=
  fold_left
    (fun allCandidates slot =>
       match slot with
       | Some beam => expand this row allCandidates beam
       | None => allCandidates
       end)
    beams (new_BeamList width).

Definition unbounded_step (this : CTCBeamSearch) (beams : list BeamEntry)
    (row : list num) : list BeamEntry :=
  Array_sort (_beamList (pool_after this 0 (Some <$> beams) row)).

Fixpoint unbounded_from (this : CTCBeamSearch) (beams : list BeamEntry)
    (logProbs : list (list num)) : list BeamEntry :=
  match logProbs with
  | [] => beams
  | row :: logProbs' =>
      unbounded_from this (unbounded_step this beams row) logProbs'
  end.

Fixpoint fits (width : nat) (this : CTCBeamSearch) (beams : list BeamEntry)
    (logProbs : list (list num)) : bool :=
  match logProbs with
  | [] => true
  | row :: logProbs' =>
      let beams' := unbounded_step this beams row in
      (length beams' <=? width)%nat && fits width this beams' logProbs'
  end.

(* results[0].convertToStr(vocabulary), when there is a first result *)
Definition head_label (vocabulary : Vocabulary) (results : list BeamEntry)
  : option string :=
  (fun e => (convertToStr e vocabulary).2) <$> head results.

(** ** The notions of the further properties *)

(* The string of a label sequence: what [convertToStr] computes when
   the cache [_string] is empty. *)
Definition decode (vocabulary : Vocabulary) (s : list Z) : string :=
  join (map (index_char vocabulary) s).

(* The candidates that a beam holds, without the empty slots. *)
Definition candidates (beams : list (option BeamEntry)) : list BeamEntry :=
  omap id beams.

(** The two tables of a pool agree: every member carries its label
    string in [_string] and [_beams] has its position under that label,
    and every key of [_beams] is the label of the member at its
    position and is not a name of [Object_prototype]. *)
Definition coherent (pool : BeamList) : Prop :=
  (∀ i e, _beamList pool !! i = Some e →
          ∃ l, _string e = Some l ∧ _beams pool !! l = Some i) ∧
  (∀ l i, _beams pool !! l = Some i →
          (l ∉ Object_prototype) ∧
          ∃ e, _beamList pool !! i = Some e ∧ _string e = Some l).

(* The cache of a candidate holds the string of its sequence. *)
Definition labelled (vocabulary : Vocabulary) (e : BeamEntry) : Prop :=
  _string e = Some (decode vocabulary (seq e)).

(* A label string that [add] does not take for an inherited name. *)
Definition printable (vocabulary : Vocabulary) (e : BeamEntry) : Prop :=
  decode vocabulary (seq e) ∉ Object_prototype.

(** A pool whose tables agree and whose members all cache the string
    of their sequence and satisfy [Q]. *)
Definition holds (vocabulary : Vocabulary) (Q : BeamEntry → Prop)
    (pool : BeamList) : Prop :=
  coherent pool ∧
  Forall (fun e => labelled vocabulary e ∧ Q e) (_beamList pool).

(* The indices below [n] print as single characters, each as its own. *)
Definition one_char_labels (vocabulary : Vocabulary) (n : Z) : Prop :=
  ∀ i j, 0 ≤ i < n → 0 ≤ j < n →
    String.length (index_char vocabulary i) = 1%nat ∧
    (index_char vocabulary i = index_char vocabulary j → i = j).

(* [one_char_labels], as a test. *)
Definition one_char_labelsb (vocabulary : Vocabulary) (n : Z) : bool :=
  forallb (fun i => forallb (fun j =>
    (String.length (index_char vocabulary i) =? 1)%nat
    && implb (String.eqb (index_char vocabulary i) (index_char vocabulary j))
             (i =? j)) (seqZ 0 n)) (seqZ 0 n).

(* The number of places where a label follows itself. *)
Fixpoint repeats (s : list Z) : nat :=
  match s with
  | x :: (y :: _) as s' => ((if Z.eqb x y then 1 else 0) + repeats s')%nat
  | _ => 0%nat
  end.

(* The least number of time steps of a path that collapses to [s]: a
   step for every label and one more, for a blank, between two equal
   neighbours. *)
Definition path_length (s : list Z) : nat := (length s + repeats s)%nat.

End Notions.

(** ** Concrete inputs, over [Float64] *)

(* The alphabet a, b, blank of three symbols. *)
Definition AB_VOCABULARY : Vocabulary :=
  match new_Vocabulary [("a", 0); ("b", 1)] 2 with
  | Normal v => v
  | Throw _ => mkVocabulary ∅ ∅ 0
  end.

(* new BeamEntry([]) *)
Definition root : BeamEntry := new_BeamEntry [] None.

(* The candidate "b" with a blank-ending mass: seq [1], pBlank -3. *)
Definition entry_b : BeamEntry :=
  mkBeamEntry [1] (-1)%float (-3)%float (-2)%float 1 None (Some root).

(* A beam search over the vocabulary {a: 0, b: 1} with blank index 2. *)
Definition AB_SEARCH : CTCBeamSearch := new_CTCBeamSearch AB_VOCABULARY.

(** The program of the README: build the vocabulary and the search,
    decode, and print the first result. *)
Definition first_result (charToIndex : list (string * Z)) (blankIndex : Z)
    (logProbs : list (list float)) (width : Z) : completion string :=
  match new_Vocabulary charToIndex blankIndex with
  | Throw e => Throw e
  | Normal vocabulary =>
      match search (new_CTCBeamSearch vocabulary) logProbs width with
      | Throw e => Throw e
      | Normal results =>
          match results with
          | Some e :: _ => Normal (convertToStr e vocabulary).2
          | _ => Throw TypeError
          end
      end
  end.

(* The row of three log-probabilities with all mass on index [i]:
   log 1 = 0 there, log 0 = -Infinity elsewhere. *)
Definition all_mass_on (i : Z) : list float :=
  (fun j => if j =? i then 0%float else neg_infinity) <$> [0; 1; 2].

(* The matrix of the path a, blank, a, blank, b, blank. *)
Definition path_matrix (a b blank : Z) : list (list float) :=
  all_mass_on <$> [a; blank; a; blank; b; blank].

(* ln 0.98 and ln 0.01, to the nearest binary64 number. *)
Definition LN_0_98 : float := (-0x1.4b004bce0abf7p-6)%float.
Definition LN_0_01 : float := (-0x1.26bb1bbb55515p+2)%float.

(* The row of three log-probabilities with probability 0.98 on index
   [i] and 0.01 on each of the two others. *)
Definition most_mass_on (i : Z) : list float :=
  (fun j => if j =? i then LN_0_98 else LN_0_01) <$> [0; 1; 2].

(* The matrix that puts nearly all mass on the path
   a, blank, a, blank, b, blank. *)
Definition near_path_matrix (a b blank : Z) : list (list float) :=
  most_mass_on <$> [a; blank; a; blank; b; blank].

(* The alphabet b, a, blank: the vocabulary {a: 1, b: 0} with blank
   index 2. *)
Definition BA_VOCABULARY : Vocabulary :=
  match new_Vocabulary [("a", 1); ("b", 0)] 2 with
  | Normal v => v
  | Throw _ => mkVocabulary ∅ ∅ 0
  end.

(* The first of the results has a total greater than the second's by
   more than [d]. *)
Definition leads_by (d : float) (results : list BeamEntry) : bool :=
  match results with
  | first :: second :: _ => (pTotal second + d <? pTotal first)%float
  | _ => false
  end.

(* Four candidates without a NaN, two of them with the label "ab" and
   the total -Infinity. *)
Definition SHARED_LABEL : list (option BeamEntry) :=
  [Some (mkBeamEntry [0] (-2)%float 0%float (-2)%float 0 None (Some root));
   Some (mkBeamEntry [0; 1] neg_infinity 0%float neg_infinity 1 None (Some root));
   Some (mkBeamEntry [1] (-1)%float 0%float (-1)%float 1 None (Some root));
   Some (mkBeamEntry [0; 1] neg_infinity 0%float neg_infinity 1 None (Some root))].

(* Two candidates with different labels, "b" and "ba". *)
Definition entry_ba : BeamEntry :=
  mkBeamEntry [1; 0] (-0.5)%float 0%float (-0.5)%float 0 None (Some entry_b).

(* What one time step adds for the root when only b is extended. *)
Definition ONE_CANDIDATE : list (option BeamEntry) :=
  [extend root 1 (-1)%float (-2)%float].

(* A vocabulary whose blank is the first index. *)
Definition BLANK_FIRST : list (string * Z) := [("a", 1); ("b", 2)].

(* One time step over the alphabet a, b, blank. *)
Definition ONE_ROW : list (list float) := [[(-1)%float; (-2)%float; (-3)%float]].

(** * Properties *)

Section Properties.
Context {N : JSNumber}.

(** ** logSumExp *)

Lemma logSumExp_zero_l (x : num) : logSumExp zero x = x.
Proof. unfold logSumExp. by rewrite strict_eq_zero. Qed.

Lemma logSumExp_comm (a b : num) :
  ordered a b → logSumExp a b = logSumExp b a.
Proof.
  intros (Hzero & Hasym & Htot). unfold logSumExp.
  destruct (strict_eq a zero) eqn:Ea, (strict_eq b zero) eqn:Eb; auto.
  - symmetry. auto.
  - destruct (gt a b) eqn:Eab.
    + by rewrite (Hasym eq_refl).
    + destruct (gt b a) eqn:Eba; [done|].
      by rewrite (Htot eq_refl eq_refl).
Qed.

(** C7: logSumExp is commutative on every pair of log-probabilities,
    and the sentinel 0 is its identity: logSumExp(0, x) = x. *)
Theorem logSumExp_commutative_identity (a b x : num) :
  ordered a b →
  logSumExp a b = logSumExp b a ∧ logSumExp zero x = x.
Proof.
  intros H. split; [by apply logSumExp_comm | apply logSumExp_zero_l].
Qed.

(** ** BeamEntry *)

Lemma new_BeamEntry_seq (s : list Z) (l : option Z) :
  seq (new_BeamEntry s l) = s.
Proof.
  unfold new_BeamEntry, _calculateLast. simpl.
  destruct (truthy l); [done|]. by destruct (last s).
Qed.

Lemma new_BeamEntry_probs (s : list Z) (l : option Z) :
  pTotal (new_BeamEntry s l) = zero ∧ pBlank (new_BeamEntry s l) = zero ∧
  pNonBlank (new_BeamEntry s l) = zero.
Proof.
  unfold new_BeamEntry, _calculateLast. simpl.
  destruct (truthy l); [done|]. by destruct (last s).
Qed.

(* A falsy [last] is recomputed; a truthy one is taken as given. *)
Lemma new_BeamEntry_last (s : list Z) (l : option Z) :
  _last (new_BeamEntry s l) = default (expected_last s) (truthy l).
Proof.
  unfold new_BeamEntry, _calculateLast, expected_last. simpl.
  destruct (truthy l); [done|]. by destruct (last s).
Qed.

Lemma truthy_Some (l : Z) : default l (truthy (Some l)) = l.
Proof. simpl. destruct (Z.eqb_spec l 0); simpl; congruence. Qed.

Lemma copy_Some (this : BeamEntry) (row : list num) (blank : num) :
  _last this ≠ -1 →
  ∃ r, copy this row blank = Some r ∧
       seq r = seq this ∧
       _last r = default (expected_last (seq this)) (truthy (Some (_last this))) ∧
       pNonBlank r = num_add (pNonBlank this) (row_at row (_last this)) ∧
       pBlank r = (if parent_has_last this
                   then num_add (pTotal this) blank
                   else num_add (pNonBlank this) blank) ∧
       pTotal r = logSumExp (pNonBlank r) (pBlank r).
Proof.
  intros Hlast. unfold copy.
  destruct (Z.eqb_spec (_last this) (-1)) as [|_]; [done|].
  eexists. split; [done|]. cbn [seq _last pNonBlank pBlank pTotal set_parent
    set_pTotal set_pNonBlank set_pBlank].
  destruct (parent_has_last this);
    cbn [seq _last pNonBlank pBlank pTotal set_pBlank];
    rewrite ?new_BeamEntry_seq, ?new_BeamEntry_last; done.
Qed.

Lemma copy_None (this : BeamEntry) (row : list num) (blank : num) :
  _last this = -1 → copy this row blank = None.
Proof. intros H. unfold copy. by rewrite H. Qed.

(** C9: copy returns nothing for the root candidate ([_last] is -1);
    for every other candidate it returns a successor with the same
    sequence, whose pNonBlank is the old pNonBlank plus
    row[lastIndex], and whose pTotal is the log-sum of its pNonBlank
    and pBlank (in either order of the two, for log-probabilities). *)
Theorem copy_successor (this : BeamEntry) (row : list num) (blank : num) :
  (_last this = -1 → copy this row blank = None) ∧
  (_last this ≠ -1 →
   ∃ r, copy this row blank = Some r ∧
        seq r = seq this ∧
        pNonBlank r = num_add (pNonBlank this) (row_at row (_last this)) ∧
        pTotal r = logSumExp (pNonBlank r) (pBlank r) ∧
        (ordered (pNonBlank r) (pBlank r) →
         pTotal r = logSumExp (pBlank r) (pNonBlank r))).
Proof.
  split; [apply copy_None|].
  intros H. destruct (copy_Some this row blank H) as (r & Hr & Hs & _ & Hn & _ & Ht).
  exists r. repeat split; try done.
  intros Ho. by rewrite Ht, (logSumExp_comm _ _ Ho).
Qed.

Lemma new_BeamEntry_snoc (s : list Z) (index : Z) :
  new_BeamEntry (s ++ [index]) (Some index)
  = mkBeamEntry (s ++ [index]) zero zero zero index None None.
Proof.
  unfold new_BeamEntry, _calculateLast, truthy.
  destruct (index =? 0); [|done]. simpl. by rewrite last_snoc.
Qed.

(** [extend], case by case. *)
Lemma extend_cases (this : BeamEntry) (index : Z) (prob pBlank' : num) :
  extend this index prob pBlank' =
    if (_last this =? -1) && (index =? 0) then
      Some (mkBeamEntry [] (num_add (pTotal this) (logSumExp prob pBlank'))
                        zero zero (-1) None (Some this))
    else if (index =? _last this) && strict_eq (pBlank this) zero then None
    else
      let p := num_add (if index =? _last this then pBlank this else pTotal this)
                       prob in
      Some (mkBeamEntry (seq this ++ [index]) p zero p index None (Some this)).
Proof.
  unfold extend.
  destruct ((_last this =? -1) && (index =? 0)); [done|].
  destruct (index =? _last this); simpl.
  - destruct (strict_eq (pBlank this) zero); [done|].
    by rewrite new_BeamEntry_snoc.
  - by rewrite new_BeamEntry_snoc.
Qed.

(** C8: extending a candidate by its own last label gives nothing when
    its pBlank is the sentinel 0, and otherwise a successor whose
    pNonBlank and pTotal are both pBlank + symbolLogProb and whose
    sequence is the old one with the index appended. *)
Theorem extend_same_label (this : BeamEntry) (index : Z) (prob pBlank' : num) :
  index = _last this →
  (strict_eq (pBlank this) zero = true →
   extend this index prob pBlank' = None) ∧
  (strict_eq (pBlank this) zero = false →
   ∃ r, extend this index prob pBlank' = Some r ∧
        pNonBlank r = num_add (pBlank this) prob ∧
        pTotal r = num_add (pBlank this) prob ∧
        seq r = seq this ++ [index]).
Proof.
  intros ->. rewrite extend_cases.
  assert ((_last this =? -1) && (_last this =? 0) = false) as ->.
  { destruct (Z.eqb_spec (_last this) (-1)) as [->|]; done. }
  rewrite Z.eqb_refl. simpl. split; intros ->; [done|].
  eexists. split; [done|]. done.
Qed.

(** *** The equation between the three probabilities *)

Lemma merge_fields (beam existing : BeamEntry) :
  pBlank (merge beam existing) = logSumExp (pBlank beam) (pBlank existing) ∧
  pNonBlank (merge beam existing)
    = logSumExp (pNonBlank beam) (pNonBlank existing) ∧
  pTotal (merge beam existing) = logSumExp (pTotal beam) (pTotal existing) ∧
  seq (merge beam existing) = seq existing ∧
  _last (merge beam existing) = _last existing.
Proof. done. Qed.

(** C2, as the code has it: pTotal = logSumExp(pBlank, pNonBlank) holds
    for a candidate fresh from the constructor and for an extend
    successor that appends a label (cases 3 and 4); a copy successor has
    pTotal = logSumExp(pNonBlank, pBlank), which is the same for
    log-probabilities.  The successor of the leading case of extend
    (the root extended by index 0) keeps pBlank and pNonBlank at the
    sentinel and has pTotal = old pTotal + logSumExp(prob, blank); a
    merge sets each of the three fields to the logSumExp of the two
    candidates' values of that field. *)
Theorem pTotal_equation (s : list Z) (last : option Z)
    (this : BeamEntry) (row : list num)
    (index : Z) (prob blank : num) (r : BeamEntry) :
  (let fresh := new_BeamEntry s last in
   pTotal fresh = logSumExp (pBlank fresh) (pNonBlank fresh)) ∧
  (copy this row blank = Some r →
   pTotal r = logSumExp (pNonBlank r) (pBlank r) ∧
   (ordered (pNonBlank r) (pBlank r) →
    pTotal r = logSumExp (pBlank r) (pNonBlank r))) ∧
  (extend this index prob blank = Some r →
   if (_last this =? -1) && (index =? 0)
   then pBlank r = zero ∧ pNonBlank r = zero ∧
        pTotal r = num_add (pTotal this) (logSumExp prob blank)
   else pTotal r = logSumExp (pBlank r) (pNonBlank r)) ∧
  (pBlank (merge this r) = logSumExp (pBlank this) (pBlank r) ∧
   pNonBlank (merge this r) = logSumExp (pNonBlank this) (pNonBlank r) ∧
   pTotal (merge this r) = logSumExp (pTotal this) (pTotal r)).
Proof.
  split_and!; try done.
  - intros fresh.
    destruct (new_BeamEntry_probs s last) as (H1 & H2 & H3).
    unfold fresh. by rewrite H1, H2, H3, logSumExp_zero_l.
  - intros Hc. unfold copy in Hc.
    destruct (_last this =? -1); [done|]. injection Hc as <-.
    split; [by destruct (parent_has_last this)|].
    intros Ho. rewrite <- (logSumExp_comm _ _ Ho).
    by destruct (parent_has_last this).
  - rewrite extend_cases.
    destruct ((_last this =? -1) && (index =? 0)).
    + by intros [= <-].
    + destruct ((index =? _last this) && strict_eq (pBlank this) zero);
        [done|].
      intros [= <-]. simpl. by rewrite logSumExp_zero_l.
Qed.

(** *** The candidates of a search *)

Lemma convertToStr_fields (this : BeamEntry) (vocabulary : Vocabulary) :
  let e := (convertToStr this vocabulary).1 in
  seq e = seq this ∧ _last e = _last this ∧ pTotal e = pTotal this ∧
  pBlank e = pBlank this ∧ pNonBlank e = pNonBlank this.
Proof. unfold convertToStr. by destruct (_string this). Qed.

Lemma expected_last_truthy (s : list Z) (l : Z) :
  l = expected_last s →
  default (expected_last s) (truthy (Some l)) = expected_last s.
Proof. intros <-. apply truthy_Some. Qed.

(** The shape of the sequence of a produced entry: its labels are
    indices counted from 0, the first one is not 0, and [_last] is its
    final label. *)
Lemma produced_shape (e : BeamEntry) :
  produced e →
  _last e = expected_last (seq e) ∧ Forall (Z.le 0) (seq e) ∧
  head (seq e) ≠ Some 0.
Proof.
  induction 1 as [|this row blank r _ (IHl & IHs & IHh) Hc
                  |this index prob blank r _ (IHl & IHs & IHh) Hi He
                  |this v _ IH|beam existing _ _ _ IH].
  - done.
  - destruct (Z.eq_dec (_last this) (-1)) as [E|E].
    { by rewrite copy_None in Hc. }
    destruct (copy_Some this row blank E) as (r' & Hr & Hs & Hl & _).
    rewrite Hc in Hr. injection Hr as <-. rewrite Hs, Hl.
    split_and!; try done. by apply expected_last_truthy.
  - rewrite extend_cases in He.
    destruct ((_last this =? -1) && (index =? 0)) eqn:E1.
    { injection He as <-. simpl. split_and!; done. }
    destruct ((index =? _last this) && strict_eq (pBlank this) zero);
      [done|].
    injection He as <-. simpl. split_and!.
    + unfold expected_last. by rewrite last_snoc.
    + apply Forall_app. split; [done|]. by apply Forall_singleton.
    + destruct (seq this) as [|z s] eqn:Es; [|done].
      simpl. intros [= ->]. unfold expected_last in IHl. simpl in IHl.
      by rewrite IHl in E1.
  - destruct (convertToStr_fields this v) as (-> & -> & _). done.
  - done.
Qed.

(** C10: every entry produced during a search (the root, a copy
    successor, an extend successor, also after a merge) has [_last]
    equal to the final element of [seq], and to -1 when [seq] is
    empty, although the constructor recomputes a [last] of 0. *)
Theorem produced_last (e : BeamEntry) :
  produced e →
  _last e = match last (seq e) with Some l => l | None => -1 end.
Proof. intros H. by destruct (produced_shape e H) as (-> & _). Qed.

(** ** BeamList *)

Lemma consistent_subseteq (l1 l2 : list BeamEntry) :
  l1 ⊆ l2 → consistent l2 → consistent l1.
Proof. intros Hsub Hc x y z Hx Hy Hz. apply Hc; by apply Hsub. Qed.

Lemma consistentb_consistent (l : list BeamEntry) :
  consistentb l = true → consistent l.
Proof.
  intros H x y z Hx%list_elem_of_In Hy%list_elem_of_In Hz%list_elem_of_In.
  unfold consistentb in H.
  rewrite forallb_forall in H. specialize (H x Hx).
  rewrite forallb_forall in H. specialize (H y Hy).
  rewrite forallb_forall in H. specialize (H z Hz).
  apply andb_prop in H as [H H3]. apply andb_prop in H as [H1 H2].
  apply Bool.eqb_prop in H1. split; [done|].
  destruct (gt (pTotal y) (pTotal x)), (gt (pTotal x) (pTotal y)),
    (gt (pTotal z) (pTotal y)), (gt (pTotal z) (pTotal x)); done.
Qed.

Lemma sort_insert_perm (x : BeamEntry) (l : list BeamEntry) :
  sort_insert x l ≡ₚ x :: l.
Proof.
  induction l as [|y l IH]; simpl; [done|].
  destruct (sorts_after x y); [|done].
  rewrite IH. apply Permutation_swap.
Qed.

Lemma Array_sort_perm (l : list BeamEntry) : Array_sort l ≡ₚ l.
Proof.
  induction l as [|x l IH]; simpl; [done|].
  by rewrite sort_insert_perm, IH.
Qed.

Lemma sort_insert_sorted (x : BeamEntry) (l : list BeamEntry) :
  consistent (x :: l) →
  StronglySorted at_least l → StronglySorted at_least (sort_insert x l).
Proof.
  induction l as [|y l IH]; simpl; intros Hc Hs.
  { repeat constructor. }
  apply StronglySorted_cons in Hs as [Hy Hs].
  assert (x ∈ x :: y :: l) as Hx by apply list_elem_of_here.
  assert (y ∈ x :: y :: l) as Hy' by (right; left).
  destruct (Hc x y y Hx Hy' Hy') as (Hsign & Hasym & _).
  unfold at_least in *.
  destruct (sorts_after x y) eqn:E; apply StronglySorted_cons; split.
  - rewrite sort_insert_perm. constructor; [|done].
    apply Hasym. by rewrite <- Hsign.
  - apply IH; [|done]. eapply consistent_subseteq; [|done].
    intros z Hz. apply elem_of_cons in Hz as [->|Hz]; [left|by do 2 right].
  - constructor; [by rewrite <- Hsign|].
    apply Forall_forall. intros z Hz.
    assert (z ∈ x :: y :: l) as Hz' by (by do 2 right).
    destruct (Hc x y z Hx Hy' Hz') as (_ & _ & Htrans).
    apply Htrans; [by rewrite <- Hsign|].
    by eapply Forall_forall in Hy.
  - by apply StronglySorted_cons.
Qed.

Lemma Array_sort_sorted (l : list BeamEntry) :
  consistent l → StronglySorted at_least (Array_sort l).
Proof.
  induction l as [|x l IH]; simpl; intros Hc; [constructor|].
  apply sort_insert_sorted.
  - eapply consistent_subseteq; [|done]. by rewrite Array_sort_perm.
  - apply IH. eapply consistent_subseteq; [|done].
    intros z Hz. by right.
Qed.

Lemma StronglySorted_non_increasing (l : list BeamEntry) :
  StronglySorted at_least l → non_increasing l.
Proof.
  induction 1 as [|a l _ IH Ha]; intros i j x y Hij Hi Hj.
  { by rewrite lookup_nil in Hi. }
  destruct j as [|j]; [lia|]. destruct i as [|i]; simpl in *.
  - injection Hi as <-. eapply Forall_forall in Ha; [done|].
    by eapply list_elem_of_lookup_2.
  - eapply (IH i j); [lia|done..].
Qed.

(** *** The members of a pool *)

Lemma add_size (pool : BeamList) beam vocab : _size (add pool beam vocab) = _size pool.
Proof.
  unfold add. destruct beam as [b|]; [|done].
  destruct (convertToStr b vocab) as [b' label].
  destruct (_beams pool !! label); [done|]. by case_bool_decide.
Qed.

Lemma feed_size (inputs : list (option BeamEntry)) vocab (pool : BeamList) :
  _size (feed pool inputs vocab) = _size pool.
Proof.
  revert pool. induction inputs as [|b inputs IH]; intros pool; [done|].
  unfold feed in *. simpl. by rewrite IH, add_size.
Qed.

Lemma add_inv (pool : BeamList) (seen : list string) (b : BeamEntry) vocab :
  pool_inv pool seen →
  pool_inv (add pool (Some b) vocab) (seen ++ [(convertToStr b vocab).2]).
Proof.
  intros [Hdom Hlen]. unfold pool_inv, member_labels in *.
  rewrite list_to_set_snoc_L.
  generalize dependent (list_to_set seen : gset string). intros labels Hdom.
  unfold add. destruct (convertToStr b vocab) as [b' label].
  cbn [fst snd].
  assert (label ∈ Object_prototype
          ↔ label ∈ (list_to_set Object_prototype : gset string)) as Hin
    by by rewrite elem_of_list_to_set.
  generalize dependent (list_to_set Object_prototype : gset string).
  intros inherited Hdom Hin.
  destruct (_beams pool !! label) as [addr|] eqn:E; cbn [_beams _beamList].
  - rewrite length_alter. split; [|done].
    assert (label ∈ dom (_beams pool)) by (apply elem_of_dom; eauto).
    clear Hin. set_solver.
  - case_bool_decide as Hinherited; simpl.
    + split; [|done]. apply Hin in Hinherited. clear Hin. set_solver.
    + rewrite dom_insert_L, length_app, map_size_insert_None by done.
      simpl. split; [|lia]. rewrite Hdom.
      assert (label ∉ inherited) as Hown by by rewrite <- Hin.
      clear Hin Hinherited. set_solver.
Qed.

Lemma feed_inv (inputs : list (option BeamEntry)) vocab
    (pool : BeamList) (seen : list string) :
  pool_inv pool seen →
  pool_inv (feed pool inputs vocab) (seen ++ labels_seen vocab inputs).
Proof.
  revert pool seen. induction inputs as [|[b|] inputs IH]; intros pool seen H.
  - unfold labels_seen. simpl. by rewrite (right_id_L [] (++)).
  - unfold feed, labels_seen in *. cbn [fold_left omap list_omap fmap list_fmap].
    simpl. rewrite cons_middle, (assoc_L (++)). apply IH. by apply add_inv.
  - unfold feed, labels_seen in *. simpl. by apply IH.
Qed.

Lemma feed_length (inputs : list (option BeamEntry)) vocab (width : Z) :
  length (_beamList (feed (new_BeamList width) inputs vocab))
  = size (member_labels (labels_seen vocab inputs)).
Proof.
  destruct (feed_inv inputs vocab (new_BeamList width) []) as [Hdom Hlen].
  { split; [|done]. unfold member_labels. simpl. set_solver. }
  by rewrite Hlen, <- size_dom, Hdom.
Qed.

Lemma length_set_length {A} (n : nat) (a : list (option A)) :
  length (set_length n a) = n.
Proof. unfold set_length. rewrite length_app, length_take, length_replicate. lia. Qed.

(** C1, as the code has it: for a pool whose capacity is a valid array
    length and whose members have totals, as the merges of add left
    them, that the comparator orders consistently, sort returns an
    array of exactly capacity slots.  With n the number of
    distinct label strings fed to the pool (not counting a name that
    every object inherits, such as "constructor"), the members are n
    and come first, sorted non-increasing by pTotal and cut to the
    capacity; the slots after them, capacity - n of them when n is the
    smaller, are empty.  So the array never holds more than capacity
    entries, and it is padded, not shorter, when fewer labels exist. *)
Theorem sort_length_order (width : Z) (inputs : list (option BeamEntry))
    (vocab : Vocabulary) :
  let pool := feed (new_BeamList width) inputs vocab in
  let n := size (member_labels (labels_seen vocab inputs)) in
  valid_length width = true →
  consistent (_beamList pool) →
  ∃ sorted rev,
    sort pool = Normal rev ∧
    length rev = Z.to_nat width ∧
    rev = (Some <$> take (Z.to_nat width) sorted)
            ++ replicate (Z.to_nat width - n) None ∧
    sorted ≡ₚ _beamList pool ∧ length sorted = n ∧ non_increasing sorted.
Proof.
  intros pool n Hvalid Hc.
  exists (Array_sort (_beamList pool)). eexists.
  assert (length (Array_sort (_beamList pool)) = n) as Hn.
  { rewrite Array_sort_perm. apply feed_length. }
  assert (_size pool = width) as Hsize by apply feed_size.
  unfold sort. rewrite Hsize, Hvalid.
  split_and!; [done|apply length_set_length| |apply Array_sort_perm|done|].
  - unfold set_length. by rewrite fmap_take, length_fmap, Hn.
  - by apply StronglySorted_non_increasing, Array_sort_sorted.
Qed.

(** ** CTCBeamSearch *)

Lemma add_produced (pool : BeamList) (beam : option BeamEntry) vocab :
  Forall produced (_beamList pool) →
  from_option produced True beam →
  Forall produced (_beamList (add pool beam vocab)).
Proof.
  intros Hpool Hbeam. destruct beam as [b|]; [|done]. simpl in Hbeam.
  unfold add. pose proof (produced_convertToStr b vocab Hbeam) as Hb.
  destruct (convertToStr b vocab) as [b' label]. simpl in Hb.
  destruct (_beams pool !! label) as [existing|]; simpl.
  - apply Forall_alter; [done|]. intros x _ Hx. by apply produced_merge.
  - case_bool_decide; [done|]. simpl.
    apply Forall_app. split; [done|]. by apply Forall_singleton.
Qed.

Lemma expand_produced (this : CTCBeamSearch) (row : list num)
    (pool : BeamList) (beam : BeamEntry) :
  Forall produced (_beamList pool) → produced beam →
  Forall produced (_beamList (expand this row pool beam)).
Proof.
  intros Hpool Hbeam. unfold expand.
  set (indices := seqZ 0 (Z.of_nat (length row) - 1)).
  assert (Forall (Z.le 0) indices) as Hindices.
  { apply Forall_forall. intros i Hi. apply elem_of_seqZ in Hi. lia. }
  set (pool1 := add pool _ _).
  assert (Forall produced (_beamList pool1)) as Hpool1.
  { apply add_produced; [done|].
    destruct (copy beam row _) eqn:Hc; [|done]. simpl.
    by eapply produced_copy. }
  clearbody indices pool1. clear Hpool.
  revert pool1 Hpool1. induction Hindices as [|cIndex indices Hc _ IH];
    intros pool1 Hpool1; [done|].
  simpl. apply IH. apply add_produced; [done|].
  destruct (extend beam cIndex _ _) eqn:He; [|done]. simpl.
  by eapply produced_extend.
Qed.

Lemma sort_elem_of (pool : BeamList) (rev : list (option BeamEntry)) e :
  sort pool = Normal rev → Some e ∈ rev → e ∈ _beamList pool.
Proof.
  unfold sort. destruct (valid_length (_size pool)); [|done].
  intros [= <-]. unfold set_length. rewrite elem_of_app.
  intros [Hin|Hin].
  - apply subseteq_take in Hin. apply list_elem_of_fmap in Hin as (x & [= ->] & Hx).
    by rewrite Array_sort_perm in Hx.
  - by apply elem_of_replicate in Hin as [? _].
Qed.

Lemma step_produced (this : CTCBeamSearch) (width : Z)
    (beams rev : list (option BeamEntry)) (row : list num) :
  slots produced beams → step this width beams row = Normal rev →
  slots produced rev.
Proof.
  intros Hbeams Hstep e He. unfold step in Hstep.
  eapply sort_elem_of in Hstep; [|done].
  eapply Forall_forall; [|done].
  assert (Forall produced (_beamList (new_BeamList width))) as Hpool
    by constructor.
  revert Hbeams Hpool. generalize (new_BeamList width). clear.
  induction beams as [|slot beams IH]; intros pool Hbeams Hpool; [done|].
  simpl. apply IH.
  - intros e' He'. apply Hbeams. by right.
  - destruct slot as [beam|]; [|done].
    apply expand_produced; [done|]. apply Hbeams. left.
Qed.

Lemma search_from_produced (this : CTCBeamSearch) (width : Z)
    (logProbs : list (list num)) (beams rev : list (option BeamEntry)) :
  slots produced beams → search_from this width beams logProbs = Normal rev →
  slots produced rev.
Proof.
  revert beams. induction logProbs as [|row logProbs IH]; intros beams Hb.
  { by intros [= <-]. }
  simpl. destruct (step this width beams row) as [beams'|] eqn:Hstep; [|done].
  apply IH. by eapply step_produced.
Qed.

(** Every entry that [search] returns is a produced one. *)
Lemma search_produced (this : CTCBeamSearch) (logProbs : list (list num))
    (width : Z) (beams : list (option BeamEntry)) (e : BeamEntry) :
  search this logProbs width = Normal beams → Some e ∈ beams → produced e.
Proof.
  intros Hs He. eapply search_from_produced; [|done..].
  intros e' He'. apply list_elem_of_singleton in He' as [= ->].
  apply produced_root.
Qed.

(** No sequence that [search] returns starts with index 0: the root
    extended by index 0 stays the root (case 1 of extend). *)
Lemma search_seq_head (this : CTCBeamSearch) (logProbs : list (list num))
    (width : Z) (beams : list (option BeamEntry)) (e : BeamEntry) :
  search this logProbs width = Normal beams → Some e ∈ beams →
  head (seq e) ≠ Some 0.
Proof.
  intros Hs He. by apply produced_shape, (search_produced _ _ _ _ _ Hs He).
Qed.

(** *** No validation of the arguments *)

Lemma expand_size (this : CTCBeamSearch) (row : list num)
    (pool : BeamList) (beam : BeamEntry) :
  _size (expand this row pool beam) = _size pool.
Proof.
  unfold expand. set (pool1 := add pool _ _).
  assert (_size pool1 = _size pool) as <- by apply add_size.
  generalize pool1. clear.
  induction (seqZ 0 (Z.of_nat (length row) - 1)) as [|cIndex indices IH];
    intros pool1; [done|].
  simpl. by rewrite IH, add_size.
Qed.

Lemma step_sort (this : CTCBeamSearch) (width : Z)
    (beams : list (option BeamEntry)) (row : list num) :
  ∃ pool, _size pool = width ∧ step this width beams row = sort pool.
Proof.
  unfold step. eexists. split; [|done].
  assert (_size (new_BeamList width) = width) as Hsize by done.
  revert Hsize. generalize (new_BeamList width).
  induction beams as [|slot beams IH]; intros pool Hsize; [done|].
  simpl. apply IH. destruct slot; [|done]. by rewrite expand_size.
Qed.

Lemma step_valid (this : CTCBeamSearch) (width : Z)
    (beams : list (option BeamEntry)) (row : list num) :
  valid_length width = true →
  ∃ rev, step this width beams row = Normal rev ∧
         length rev = Z.to_nat width.
Proof.
  intros Hvalid. destruct (step_sort this width beams row) as (pool & Hsize & ->).
  unfold sort. rewrite Hsize, Hvalid. eexists. split; [done|].
  apply length_set_length.
Qed.

Lemma step_invalid (this : CTCBeamSearch) (width : Z)
    (beams : list (option BeamEntry)) (row : list num) :
  valid_length width = false → step this width beams row = Throw RangeError.
Proof.
  intros Hvalid. destruct (step_sort this width beams row) as (pool & Hsize & ->).
  unfold sort. by rewrite Hsize, Hvalid.
Qed.

Lemma search_from_valid (this : CTCBeamSearch) (width : Z)
    (logProbs : list (list num)) (beams : list (option BeamEntry)) :
  valid_length width = true →
  ∃ rev, search_from this width beams logProbs = Normal rev ∧
         (logProbs ≠ [] → length rev = Z.to_nat width).
Proof.
  intros Hvalid. revert beams.
  induction logProbs as [|row logProbs IH]; intros beams.
  { by exists beams. }
  simpl. destruct (step_valid this width beams row Hvalid) as (rev & -> & Hlen).
  destruct (IH rev) as (rev' & Hrev' & Hlen'). exists rev'. split; [done|].
  intros _. destruct logProbs; [|by apply Hlen'].
  by injection Hrev' as <-.
Qed.

(** C4, as the code has it: search validates neither argument.  On an
    empty matrix it returns the beam that holds the root candidate, for
    every width.  For a width that is a valid array length (0 up to
    2^32 - 1) it returns on every matrix, whatever the lengths of its
    rows, a beam of width slots if there was a row.  For another width
    (a negative one) and a matrix with a row it raises the RangeError
    of the first time step's sort. *)
Theorem search_no_validation (this : CTCBeamSearch)
    (logProbs : list (list num)) (width : Z) :
  (logProbs = [] →
   search this logProbs width = Normal [Some (new_BeamEntry [] None)]) ∧
  (valid_length width = true →
   ∃ beams, search this logProbs width = Normal beams ∧
            (logProbs ≠ [] → length beams = Z.to_nat width)) ∧
  (valid_length width = false → logProbs ≠ [] →
   search this logProbs width = Throw RangeError).
Proof.
  split_and!.
  - by intros ->.
  - intros Hvalid. by apply search_from_valid.
  - intros Hvalid Hrows. destruct logProbs as [|row logProbs]; [done|].
    unfold search. simpl. by rewrite step_invalid.
Qed.

(** *** The width only cuts and pads *)

Lemma add_same_members (p q : BeamList) (beam : option BeamEntry) vocab :
  same_members p q → same_members (add p beam vocab) (add q beam vocab).
Proof.
  intros [Hbeams Hlist]. destruct beam as [b|]; [|done]. unfold add.
  destruct (convertToStr b vocab) as [b' label]. rewrite Hbeams.
  destruct (_beams q !! label); [by rewrite Hlist|].
  case_bool_decide; [done|]. split; simpl; by rewrite ?Hbeams, ?Hlist.
Qed.

Lemma expand_same_members (this : CTCBeamSearch) (row : list num)
    (p q : BeamList) (beam : BeamEntry) :
  same_members p q →
  same_members (expand this row p beam) (expand this row q beam).
Proof.
  intros H. unfold expand.
  apply (add_same_members _ _
           (copy beam row (row_at row (search_blankIndex this)))
           (_vocabulary this)) in H.
  revert H. generalize (add p (copy beam row (row_at row (search_blankIndex this)))
                            (_vocabulary this)).
  generalize (add q (copy beam row (row_at row (search_blankIndex this)))
                  (_vocabulary this)).
  induction (seqZ 0 (Z.of_nat (length row) - 1)) as [|cIndex indices IH];
    intros q' p' H; [done|].
  simpl. apply IH. by apply add_same_members.
Qed.

Lemma pool_after_same_members (this : CTCBeamSearch) (width width' : Z)
    (beams : list (option BeamEntry)) (row : list num) :
  same_members (pool_after this width beams row)
               (pool_after this width' beams row).
Proof.
  unfold pool_after.
  assert (same_members (new_BeamList width) (new_BeamList width')) as H by done.
  revert H. generalize (new_BeamList width) (new_BeamList width').
  induction beams as [|slot beams IH]; intros p q H; [done|].
  simpl. apply IH. destruct slot; [|done]. by apply expand_same_members.
Qed.

Lemma pool_after_holes (this : CTCBeamSearch) (width : Z)
    (beams : list (option BeamEntry)) (k : nat) (row : list num) :
  pool_after this width (beams ++ replicate k None) row
  = pool_after this width beams row.
Proof.
  unfold pool_after. rewrite fold_left_app.
  generalize (fold_left
    (fun allCandidates slot =>
       match slot with
       | Some beam => expand this row allCandidates beam
       | None => allCandidates
       end) beams (new_BeamList width)).
  induction k as [|k IH]; intros pool; [done|]. simpl. apply IH.
Qed.

Lemma pool_after_size (this : CTCBeamSearch) (width : Z)
    (beams : list (option BeamEntry)) (row : list num) :
  _size (pool_after this width beams row) = width.
Proof.
  unfold pool_after.
  assert (_size (new_BeamList width) = width) as Hsize by done.
  revert Hsize. generalize (new_BeamList width).
  induction beams as [|slot beams IH]; intros pool Hsize; [done|].
  simpl. apply IH. destruct slot; [|done]. by rewrite expand_size.
Qed.

(* A time step with a width that its candidates fit pads them. *)
Lemma step_fits (this : CTCBeamSearch) (width : Z)
    (beams : list BeamEntry) (k : nat) (row : list num) :
  valid_length width = true →
  (length (unbounded_step this beams row) ≤ Z.to_nat width)%nat →
  step this width ((Some <$> beams) ++ replicate k None) row
  = Normal ((Some <$> unbounded_step this beams row)
              ++ replicate (Z.to_nat width
                            - length (unbounded_step this beams row)) None).
Proof.
  intros Hvalid Hfits.
  change (step this width ((Some <$> beams) ++ replicate k None) row)
    with (sort (pool_after this width ((Some <$> beams) ++ replicate k None) row)).
  unfold sort. rewrite pool_after_size, Hvalid, pool_after_holes.
  destruct (pool_after_same_members this width 0 (Some <$> beams) row)
    as [_ ->].
  fold (unbounded_step this beams row).
  unfold set_length. rewrite length_fmap, take_ge; [done|].
  by rewrite length_fmap.
Qed.

Lemma search_from_fits (this : CTCBeamSearch) (width : Z)
    (logProbs : list (list num)) (beams : list BeamEntry) (k : nat) :
  valid_length width = true →
  fits (Z.to_nat width) this beams logProbs = true →
  ∃ k', search_from this width ((Some <$> beams) ++ replicate k None) logProbs
        = Normal ((Some <$> unbounded_from this beams logProbs)
                    ++ replicate k' None).
Proof.
  intros Hvalid. revert beams k.
  induction logProbs as [|row logProbs IH]; intros beams k Hfits.
  { by exists k. }
  simpl in *. apply andb_prop in Hfits as [Hlen Hfits].
  apply Nat.leb_le in Hlen. rewrite step_fits by done. by apply IH.
Qed.

(** With a width that the candidates of every time step fit, [search]
    returns the candidates of the search that cuts nothing, and empty
    slots after them. *)
Lemma search_fits (this : CTCBeamSearch) (logProbs : list (list num))
    (width : Z) :
  valid_length width = true →
  fits (Z.to_nat width) this [new_BeamEntry [] None] logProbs = true →
  ∃ k, search this logProbs width
       = Normal ((Some <$> unbounded_from this [new_BeamEntry [] None] logProbs)
                   ++ replicate k None).
Proof.
  intros Hvalid Hfits. unfold search.
  by apply (search_from_fits this width logProbs [new_BeamEntry [] None] 0).
Qed.

Lemma fits_mono (width width' : nat) (this : CTCBeamSearch)
    (logProbs : list (list num)) (beams : list BeamEntry) :
  (width ≤ width')%nat → fits width this beams logProbs = true →
  fits width' this beams logProbs = true.
Proof.
  intros Hle. revert beams.
  induction logProbs as [|row logProbs IH]; intros beams; [done|].
  simpl. intros [Hlen Hfits]%andb_prop. apply andb_true_intro. split.
  - apply Nat.leb_le. apply Nat.leb_le in Hlen. lia.
  - by apply IH.
Qed.

(** *** The labels that a time step extends by *)

(** The loop of [expand] runs over the indices below [length row - 1].
    These are the labels other than the blank exactly when the blank is
    the last index of the row. *)
Lemma extend_indices_blank_last (row : list num) (blank : Z) :
  blank = Z.of_nat (length row) - 1 →
  ∀ cIndex, cIndex ∈ seqZ 0 (Z.of_nat (length row) - 1) ↔
            (0 ≤ cIndex < Z.of_nat (length row) ∧ cIndex ≠ blank).
Proof. intros -> cIndex. rewrite elem_of_seqZ. lia. Qed.

End Properties.

(** ** Vocabulary *)

(* The pairs of a mapping that make a key of [_charToIndex]. *)
Definition own_keys (charToIndex : list (string * Z)) : list (string * Z) :=
  filter (fun kv => kv.1 ≠ "__proto__") charToIndex.

Lemma new_Vocabulary_fold (charToIndex : list (string * Z)) (blankIndex : Z) :
  fold_left new_Vocabulary_entry charToIndex
    {| _charToIndex := ∅; _indexToChar := ∅; _blankIndex := blankIndex |}
  = {| _charToIndex := list_to_map (reverse (own_keys charToIndex));
       _indexToChar := list_to_map (reverse (prod_swap <$> charToIndex));
       _blankIndex := blankIndex |}.
Proof.
  induction charToIndex as [|[k v] l IH] using rev_ind; [done|].
  rewrite fold_left_app, IH, fmap_app. cbn [fmap list_fmap].
  unfold own_keys. rewrite filter_app, !reverse_snoc. simpl.
  unfold set_property. rewrite filter_cons, filter_nil. simpl.
  case_bool_decide; case_decide; try done.
  - by rewrite (right_id_L [] (++)).
  - by rewrite reverse_snoc.
Qed.

(** C5, as the code has it: constructing a Vocabulary never fails.
    For every mapping and every blank index the constructor returns a
    vocabulary with that blank index, whose char table is the mapping
    (less a symbol "__proto__") and whose index table gives an index
    the last symbol listed with it; when the mapping is injective the
    two tables are inverse to each other. *)
Theorem new_Vocabulary_succeeds (charToIndex : list (string * Z))
    (blankIndex : Z) :
  ∃ v, new_Vocabulary charToIndex blankIndex = Normal v ∧
       _blankIndex v = blankIndex ∧
       _charToIndex v = list_to_map (reverse (own_keys charToIndex)) ∧
       _indexToChar v = list_to_map (reverse (prod_swap <$> charToIndex)) ∧
       (NoDup charToIndex.*1 → NoDup charToIndex.*2 →
        ∀ k i, k ≠ "__proto__" →
               _charToIndex v !! k = Some i ↔ _indexToChar v !! i = Some k).
Proof.
  unfold new_Vocabulary. rewrite new_Vocabulary_fold.
  eexists. split; [done|]. simpl. split_and!; try done.
  intros Hkeys Hvalues k i Hk.
  rewrite <- !elem_of_list_to_map.
  - rewrite !elem_of_reverse, list_elem_of_fmap. unfold own_keys.
    rewrite list_elem_of_filter. split.
    + intros [_ H]. by exists (k, i).
    + by intros ([k' i'] & [= -> ->] & H).
  - rewrite reverse_Permutation, <- list_fmap_compose.
    by replace (fst ∘ prod_swap) with (snd : string * Z → Z).
  - rewrite reverse_Permutation. unfold own_keys.
    apply (sublist_NoDup _ (charToIndex.*1)); [done|].
    apply fmap_sublist, sublist_filter.
Qed.

(** * Further properties *)

Section Labels.
Context {N : JSNumber}.

(** ** The label strings *)

Lemma new_BeamEntry_string (s : list Z) (l : option Z) :
  _string (new_BeamEntry s l) = None.
Proof.
  unfold new_BeamEntry, _calculateLast. simpl.
  destruct (truthy l); [done|]. by destruct (last s).
Qed.

Lemma copy_fresh (this : BeamEntry) (row : list num) (blank : num) r :
  copy this row blank = Some r → _string r = None.
Proof.
  unfold copy. destruct (_last this =? -1); [done|]. intros [= <-]. simpl.
  destruct (parent_has_last this); apply new_BeamEntry_string.
Qed.

Lemma extend_fresh (this : BeamEntry) (index : Z) (prob blank : num) r :
  extend this index prob blank = Some r → _string r = None.
Proof.
  rewrite extend_cases. repeat case_match; try done; by intros [= <-].
Qed.

Lemma merge_string (beam existing : BeamEntry) :
  _string (merge beam existing) = _string existing.
Proof. done. Qed.

Lemma convertToStr_string (e : BeamEntry) (v : Vocabulary) :
  _string (convertToStr e v).1 = Some (convertToStr e v).2.
Proof. unfold convertToStr. by destruct (_string e) eqn:E. Qed.

Lemma convertToStr_fresh (e : BeamEntry) (v : Vocabulary) :
  _string e = None → (convertToStr e v).2 = decode v (seq e).
Proof. intros H. unfold convertToStr. by rewrite H. Qed.

Lemma join_app (l1 l2 : list string) :
  join (l1 ++ l2) = String.append (join l1) (join l2).
Proof.
  induction l1 as [|x l1 IH]; [done|].
  change (String.append x (join (l1 ++ l2))
          = String.append (String.append x (join l1)) (join l2)).
  rewrite IH. generalize (join l1) (join l2). clear. intros a b.
  induction x as [|c x IH]; [done|].
  change (String c (String.append x (String.append a b))
          = String c (String.append (String.append x a) b)).
  by rewrite IH.
Qed.

Lemma decode_app (v : Vocabulary) (s1 s2 : list Z) :
  decode v (s1 ++ s2) = String.append (decode v s1) (decode v s2).
Proof. unfold decode. by rewrite map_app, join_app. Qed.

Lemma decode_cons (v : Vocabulary) (i : Z) (s : list Z) :
  decode v (i :: s) = String.append (index_char v i) (decode v s).
Proof. done. Qed.

Lemma one_char_labelsb_spec (v : Vocabulary) (n : Z) :
  one_char_labelsb v n = true → one_char_labels v n.
Proof.
  unfold one_char_labelsb. rewrite forallb_forall. intros H i j Hi Hj.
  specialize (H i). rewrite forallb_forall in H.
  assert (Hin : ∀ k, 0 ≤ k < n → In k (seqZ 0 n)).
  { intros k Hk. apply list_elem_of_In, elem_of_seqZ. lia. }
  specialize (H (Hin i Hi) j (Hin j Hj)).
  apply andb_prop in H as [Hlen Himp]. split.
  - by apply Nat.eqb_eq.
  - intros Heq. apply String.eqb_eq in Heq. rewrite Heq in Himp.
    by apply Z.eqb_eq.
Qed.

Lemma decode_inj (v : Vocabulary) (n : Z) (s s' : list Z) :
  one_char_labels v n →
  Forall (fun i => 0 ≤ i < n) s → Forall (fun i => 0 ≤ i < n) s' →
  decode v s = decode v s' → s = s'.
Proof.
  intros Hv Hs. revert s'. induction Hs as [|i s Hi Hs IH]; intros s' Hs' Heq.
  - destruct Hs' as [|j s' Hj Hs']; [done|]. rewrite decode_cons in Heq.
    destruct (Hv j j Hj Hj) as [Hlen _].
    destruct (index_char v j); [done|]. done.
  - destruct Hs' as [|j s' Hj Hs'].
    + rewrite decode_cons in Heq. destruct (Hv i i Hi Hi) as [Hlen _].
      destruct (index_char v i); [done|]. done.
    + rewrite !decode_cons in Heq.
      destruct (Hv i j Hi Hj) as [Hleni Hij].
      destruct (Hv j j Hj Hj) as [Hlenj _].
      destruct (index_char v i) as [|c [|]] eqn:Ei; try done.
      destruct (index_char v j) as [|c' [|]] eqn:Ej; try done.
      simpl in Heq. injection Heq as -> Heq.
      rewrite (Hij eq_refl). f_equal. by apply IH.
Qed.

(** ** The two tables of a pool *)

Lemma new_BeamList_coherent (width : Z) : coherent (new_BeamList width).
Proof. split; [intros i e Hi|intros l i Hl]; done. Qed.

Lemma add_coherent (pool : BeamList) (beam : option BeamEntry) vocab :
  coherent pool → coherent (add pool beam vocab).
Proof.
  intros [Hlist Hbeams]. destruct beam as [b|]; [|done]. unfold add.
  pose proof (convertToStr_string b vocab) as Hstring.
  destruct (convertToStr b vocab) as [b' label]. simpl in Hstring.
  destruct (_beams pool !! label) as [existing|] eqn:E.
  - split; simpl.
    + intros i e. rewrite list_lookup_alter.
      case_decide as Hi; [|by apply Hlist]. subst i.
      destruct (_beamList pool !! existing) as [e0|] eqn:E0; [|done].
      intros [= <-]. rewrite merge_string. by apply Hlist.
    + intros l i Hl. destruct (Hbeams l i Hl) as (Hown & e & He & Hs).
      split; [done|]. rewrite list_lookup_alter.
      case_decide; [|eauto]. subst i. rewrite He. simpl. eauto.
  - case_bool_decide as Hinherited; [done|]. split; simpl.
    + intros i e Hi. apply lookup_snoc_Some in Hi as [[Hlt Hi]|[-> <-]].
      * destruct (Hlist i e Hi) as (l & Hl & Hbl). exists l. split; [done|].
        rewrite lookup_insert_ne; [done|]. by intros <-; rewrite E in Hbl.
      * exists label. by rewrite lookup_insert_eq.
    + intros l i. destruct (decide (l = label)) as [->|Hne].
      * rewrite lookup_insert_eq. intros [= <-]. split; [done|].
        exists b'. split; [|done]. by rewrite list_lookup_middle.
      * rewrite lookup_insert_ne by done. intros Hl.
        destruct (Hbeams l i Hl) as (Hown & e & He & Hs). split; [done|].
        exists e. split; [|done]. rewrite lookup_app_l; [done|].
        by eapply lookup_lt_Some.
Qed.

Lemma expand_coherent (this : CTCBeamSearch) (row : list num)
    (pool : BeamList) (beam : BeamEntry) :
  coherent pool → coherent (expand this row pool beam).
Proof.
  intros H. unfold expand.
  apply add_coherent with (beam := copy beam row (row_at row (search_blankIndex this)))
                          (vocab := _vocabulary this) in H.
  revert H. generalize (add pool (copy beam row (row_at row (search_blankIndex this)))
                            (_vocabulary this)).
  induction (seqZ 0 (Z.of_nat (length row) - 1)) as [|i l IH]; intros p Hp; [done|].
  simpl. apply IH. by apply add_coherent.
Qed.

Lemma pool_after_coherent (this : CTCBeamSearch) (width : Z)
    (beams : list (option BeamEntry)) (row : list num) :
  coherent (pool_after this width beams row).
Proof.
  unfold pool_after. generalize (new_BeamList_coherent width).
  generalize (new_BeamList width). induction beams as [|[b|] beams IH];
    intros p Hp; simpl; [done| |by apply IH].
  apply IH. by apply expand_coherent.
Qed.

Lemma coherent_NoDup (pool : BeamList) :
  coherent pool → NoDup (_string <$> _beamList pool).
Proof.
  intros [Hlist _]. apply NoDup_alt. intros i j x Hi Hj.
  apply list_lookup_fmap_Some in Hi as (e & -> & He).
  apply list_lookup_fmap_Some in Hj as (e' & Heq & He').
  destruct (Hlist i e He) as (l & Hl & Hbl).
  destruct (Hlist j e' He') as (l' & Hl' & Hbl').
  rewrite Hl, Hl' in Heq. injection Heq as ->. rewrite Hbl in Hbl'.
  by injection Hbl'.
Qed.

(** ** What a sorted pool returns *)

Lemma candidates_Some (l : list BeamEntry) : candidates (Some <$> l) = l.
Proof. unfold candidates. induction l; [done|]. simpl. by f_equal. Qed.

Lemma candidates_holes (l : list BeamEntry) (k : nat) :
  candidates ((Some <$> l) ++ replicate k None) = l.
Proof.
  unfold candidates. rewrite omap_app. fold (candidates (Some <$> l)).
  rewrite candidates_Some. induction k; [by rewrite app_nil_r|done].
Qed.

Lemma set_length_Some (n : nat) (l : list BeamEntry) :
  set_length n (Some <$> l)
  = (Some <$> take n l) ++ replicate (n - length l) None.
Proof. unfold set_length. by rewrite fmap_take, length_fmap. Qed.

Lemma sort_Normal (pool : BeamList) (rev : list (option BeamEntry)) :
  sort pool = Normal rev →
  valid_length (_size pool) = true ∧
  rev = (Some <$> take (Z.to_nat (_size pool)) (Array_sort (_beamList pool)))
          ++ replicate (Z.to_nat (_size pool) - length (_beamList pool)) None.
Proof.
  unfold sort. destruct (valid_length (_size pool)); [|done].
  intros [= <-]. split; [done|]. rewrite set_length_Some.
  by rewrite (Permutation_length (Array_sort_perm _)).
Qed.

Lemma step_pool_after (this : CTCBeamSearch) (width : Z)
    (beams : list (option BeamEntry)) (row : list num) :
  step this width beams row = sort (pool_after this width beams row).
Proof. done. Qed.

Lemma step_Normal (this : CTCBeamSearch) (width : Z)
    (beams rev : list (option BeamEntry)) (row : list num) :
  step this width beams row = Normal rev →
  let pool := pool_after this width beams row in
  valid_length width = true ∧
  rev = (Some <$> take (Z.to_nat width) (Array_sort (_beamList pool)))
          ++ replicate (Z.to_nat width - length (_beamList pool)) None.
Proof.
  rewrite step_pool_after. intros H. apply sort_Normal in H.
  by rewrite pool_after_size in H.
Qed.

Lemma search_from_last (this : CTCBeamSearch) (width : Z)
    (logProbs : list (list num)) (beams rev : list (option BeamEntry)) :
  logProbs ≠ [] → search_from this width beams logProbs = Normal rev →
  ∃ beams' row, step this width beams' row = Normal rev.
Proof.
  revert beams. induction logProbs as [|row logProbs IH]; intros beams Hne H;
    [done|]. simpl in H.
  destruct (step this width beams row) as [beams'|] eqn:E; [|done].
  destruct logProbs as [|row' logProbs]; [|by eapply IH].
  simpl in H. injection H as <-. eauto.
Qed.

Lemma search_from_app (this : CTCBeamSearch) (width : Z)
    (l1 l2 : list (list num)) (beams : list (option BeamEntry)) :
  search_from this width beams (l1 ++ l2)
  = match search_from this width beams l1 with
    | Normal beams' => search_from this width beams' l2
    | Throw e => Throw e
    end.
Proof.
  revert beams. induction l1 as [|row l1 IH]; intros beams; [done|]. simpl.
  by destruct (step this width beams row).
Qed.

End Labels.

(** ** Properties that every step of a search keeps

    A property [P k] of the candidates after [k] time steps that the
    cache, a merge of two candidates with the same label string, and
    the copy and extend successors along a row in [R] keep holds of
    every candidate that a search returns. *)
Section Invariant.
Context {N : JSNumber}.
Variable this : CTCBeamSearch.
Variable P : nat → BeamEntry → Prop.
Variable R : list num → Prop.

Hypothesis P_cache :
  ∀ k e, P k e → P k (convertToStr e (_vocabulary this)).1.
Hypothesis P_merge :
  ∀ k b e, P k b → P k e →
    decode (_vocabulary this) (seq b) = decode (_vocabulary this) (seq e) →
    P k (merge b e).
Hypothesis P_copy :
  ∀ k e row blank r, R row → P k e → copy e row blank = Some r → P (S k) r.
Hypothesis P_extend :
  ∀ k e row index prob blank r, R row → P k e →
    0 ≤ index < Z.of_nat (length row) - 1 →
    extend e index prob blank = Some r → P (S k) r.

Lemma add_holds (k : nat) (pool : BeamList) (beam : option BeamEntry) :
  holds (_vocabulary this) (P k) pool →
  from_option (fun b => _string b = None ∧ P k b) True beam →
  holds (_vocabulary this) (P k) (add pool beam (_vocabulary this)).
Proof.
  intros [Hc Hall] Hbeam. split; [by apply add_coherent|].
  destruct beam as [b|]; [|done]. destruct Hbeam as [Hnone Hb]. unfold add.
  pose proof (convertToStr_string b (_vocabulary this)) as Hstring.
  pose proof (convertToStr_fresh b (_vocabulary this) Hnone) as Hlabel.
  pose proof (convertToStr_fields b (_vocabulary this)) as (Hseq & _).
  pose proof (P_cache k b Hb) as Hb'.
  destruct (convertToStr b (_vocabulary this)) as [b' label].
  simpl in Hstring, Hlabel, Hseq, Hb'. subst label.
  destruct (_beams pool !! decode (_vocabulary this) (seq b))
    as [existing|] eqn:E.
  - simpl. destruct Hc as [_ Hbeams].
    destruct (Hbeams _ _ E) as (_ & e & He & Hs).
    apply Forall_alter; [done|]. intros e' He' [Hl Hq].
    rewrite He in He'. injection He' as <-. split.
    + unfold labelled. by destruct (merge_fields b' e) as (_ & _ & _ & -> & _).
    + apply P_merge; [done|done|]. rewrite Hseq. unfold labelled in Hl.
      rewrite Hs in Hl. by injection Hl.
  - case_bool_decide; [done|]. simpl. apply Forall_app. split; [done|].
    constructor; [|done]. split; [|done]. unfold labelled.
    by rewrite Hstring, Hseq.
Qed.

Lemma expand_holds (k : nat) (row : list num) (pool : BeamList)
    (beam : BeamEntry) :
  R row → P k beam →
  holds (_vocabulary this) (P (S k)) pool →
  holds (_vocabulary this) (P (S k)) (expand this row pool beam).
Proof.
  intros Hrow Hbeam Hpool. unfold expand.
  assert (Hcopy : holds (_vocabulary this) (P (S k))
            (add pool (copy beam row (row_at row (search_blankIndex this)))
                 (_vocabulary this))).
  { apply add_holds; [done|].
    destruct (copy beam row _) as [r|] eqn:E; [|done]. simpl. split.
    - by eapply copy_fresh.
    - by eapply P_copy. }
  revert Hcopy.
  generalize (add pool (copy beam row (row_at row (search_blankIndex this)))
                  (_vocabulary this)).
  assert (Hin : Forall (fun i => 0 ≤ i < Z.of_nat (length row) - 1)
                  (seqZ 0 (Z.of_nat (length row) - 1))).
  { apply Forall_forall. intros i Hi%elem_of_seqZ. lia. }
  induction Hin as [|i l Hi Hl IH]; intros p Hp; [done|]. simpl. apply IH.
  apply add_holds; [done|].
  destruct (extend beam i _ _) as [r|] eqn:E; [|done]. simpl. split.
  - by eapply extend_fresh.
  - by eapply P_extend.
Qed.

Lemma pool_after_holds (k : nat) (width : Z)
    (beams : list (option BeamEntry)) (row : list num) :
  R row → slots (P k) beams →
  holds (_vocabulary this) (P (S k)) (pool_after this width beams row).
Proof.
  intros Hrow. unfold pool_after.
  assert (Hnew : holds (_vocabulary this) (P (S k)) (new_BeamList width)).
  { split; [apply new_BeamList_coherent|constructor]. }
  revert Hnew. generalize (new_BeamList width).
  induction beams as [|[b|] beams IH]; intros p Hp Hbeams; simpl; [done| |].
  - apply IH.
    + apply expand_holds; [done| |done]. apply Hbeams. left.
    + intros e He. apply Hbeams. by right.
  - apply IH; [done|]. intros e He. apply Hbeams. by right.
Qed.

Lemma step_holds (k : nat) (width : Z) (beams rev : list (option BeamEntry))
    (row : list num) :
  R row → slots (P k) beams → step this width beams row = Normal rev →
  slots (fun e => labelled (_vocabulary this) e ∧ P (S k) e) rev.
Proof.
  intros Hrow Hbeams Hstep e He. rewrite step_pool_after in Hstep.
  pose proof (sort_elem_of _ _ _ Hstep He) as Hin.
  destruct (pool_after_holds k width beams row Hrow Hbeams) as [_ Hall].
  rewrite Forall_forall in Hall. by apply Hall.
Qed.

Lemma search_from_holds (width : Z) (logProbs : list (list num)) :
  ∀ (k : nat) (beams rev : list (option BeamEntry)),
    Forall R logProbs → slots (P k) beams →
    search_from this width beams logProbs = Normal rev →
    slots (fun e => P (k + length logProbs) e ∧
                    (logProbs ≠ [] → labelled (_vocabulary this) e)) rev.
Proof.
  induction logProbs as [|row logProbs IH]; intros k beams rev Hrows Hbeams H.
  - simpl in H. injection H as <-. intros e He. rewrite Nat.add_0_r.
    split; [by apply Hbeams|done].
  - simpl in H. destruct (step this width beams row) as [beams'|] eqn:E;
      [|done].
    apply Forall_cons in Hrows as [Hrow Hrows].
    pose proof (step_holds k width beams beams' row Hrow Hbeams E) as Hstep.
    assert (Hnext : slots (P (S k)) beams').
    { intros e He. by apply Hstep. }
    pose proof (IH (S k) beams' rev Hrows Hnext H) as Hrev.
    intros e He. destruct (Hrev e He) as [Hp Hl]. split.
    + replace (k + length (row :: logProbs))%nat
        with (S k + length logProbs)%nat by (simpl; lia). done.
    + intros _. destruct logProbs as [|row' logProbs]; [|by apply Hl].
      simpl in H. injection H as <-. by apply Hstep.
Qed.

Lemma search_holds (width : Z) (logProbs : list (list num))
    (rev : list (option BeamEntry)) :
  P 0 (new_BeamEntry [] None) → Forall R logProbs →
  search this logProbs width = Normal rev →
  slots (fun e => P (length logProbs) e ∧
                  (logProbs ≠ [] → labelled (_vocabulary this) e)) rev.
Proof.
  intros Hroot Hrows H.
  apply (search_from_holds width logProbs 0 [Some (new_BeamEntry [] None)] rev);
    [done| |done].
  intros e He. apply list_elem_of_singleton in He. by injection He as ->.
Qed.

End Invariant.

(** ** Further properties of the search *)

Section Further.
Context {N : JSNumber}.

Lemma elem_of_candidates (e : BeamEntry) (beams : list (option BeamEntry)) :
  e ∈ candidates beams ↔ Some e ∈ beams.
Proof.
  unfold candidates. rewrite list_elem_of_omap. split.
  - intros ([x|] & Hx & Heq); simpl in Heq; [|done]. by injection Heq as ->.
  - intros H. by exists (Some e).
Qed.

Lemma search_labelled (this : CTCBeamSearch) (logProbs : list (list num))
    (width : Z) (beams : list (option BeamEntry)) :
  search this logProbs width = Normal beams → logProbs ≠ [] →
  Forall (labelled (_vocabulary this)) (candidates beams).
Proof.
  intros H Hne. apply Forall_forall. intros e He%elem_of_candidates.
  refine (proj2 (search_holds this (fun _ _ => True) (fun _ => True)
            _ _ _ _ width logProbs beams _ _ H e He) Hne); try done.
  by apply Forall_true.
Qed.

(** X1: A memoised label is never recomputed: after [convertToStr]
    was called on a candidate, a second call returns the same string
    and leaves the candidate as it is, even for another vocabulary. *)
Theorem convertToStr_memoized (e : BeamEntry) (v v' : Vocabulary) :
  convertToStr (convertToStr e v).1 v'
  = ((convertToStr e v).1, (convertToStr e v).2).
Proof.
  pose proof (convertToStr_string e v) as H.
  unfold convertToStr at 1. by rewrite H.
Qed.

(** X2: The candidates that a search returns have pairwise distinct
    label strings, hence pairwise distinct sequences, and after at
    least one time step each of them carries the string of its own
    sequence in its cache. *)
Theorem search_labels_distinct (this : CTCBeamSearch)
    (logProbs : list (list num)) (width : Z)
    (beams : list (option BeamEntry)) :
  search this logProbs width = Normal beams →
  NoDup ((fun e => decode (_vocabulary this) (seq e)) <$> candidates beams) ∧
  NoDup (seq <$> candidates beams) ∧
  (logProbs ≠ [] → Forall (labelled (_vocabulary this)) (candidates beams)).
Proof.
  intros H.
  assert (Hnd : NoDup ((fun e => decode (_vocabulary this) (seq e))
                         <$> candidates beams) ∧
                (logProbs ≠ [] →
                 Forall (labelled (_vocabulary this)) (candidates beams))).
  2: { destruct Hnd as [Hnd Hl]. split_and!; [done| |done].
       apply (NoDup_fmap_1 (decode (_vocabulary this))).
       by rewrite <- list_fmap_compose. }
  destruct (decide (logProbs = [])) as [->|Hne].
  { injection H as <-. split; [|done]. apply NoDup_singleton. }
  pose proof (search_labelled this logProbs width beams H Hne) as Hl.
  split; [|done].
  apply (search_from_last this width logProbs _ beams Hne) in H
    as (beams' & row & Hstep).
  apply step_Normal in Hstep as [_ ->]. rewrite candidates_holes in *.
  pose proof (coherent_NoDup _ (pool_after_coherent this width beams' row))
    as Hnd.
  rewrite <- (Array_sort_perm (_beamList (pool_after this width beams' row)))
    in Hnd.
  assert (Hsub : NoDup (_string <$> take (Z.to_nat width)
             (Array_sort (_beamList (pool_after this width beams' row))))).
  { eapply sublist_NoDup; [done|]. apply fmap_sublist, sublist_take. }
  revert Hl Hsub. generalize (take (Z.to_nat width)
    (Array_sort (_beamList (pool_after this width beams' row)))).
  intros l Hl Hsub. apply (NoDup_fmap_1 Some).
  replace (Some <$> ((fun e => decode (_vocabulary this) (seq e)) <$> l))
    with (_string <$> l); [done|].
  rewrite <- list_fmap_compose. apply Forall_fmap_ext_1.
  eapply Forall_impl; [done|]. by intros e ->.
Qed.

(** ** The first slot *)

Lemma add_length_mono (pool : BeamList) (beam : option BeamEntry) vocab :
  (length (_beamList pool) ≤ length (_beamList (add pool beam vocab)))%nat.
Proof.
  destruct beam as [b|]; [|done]. unfold add.
  destruct (convertToStr b vocab) as [b' label].
  destruct (_beams pool !! label); simpl; [by rewrite length_alter|].
  case_bool_decide; [done|]. simpl. rewrite length_app. lia.
Qed.

Lemma add_length_le (pool : BeamList) (beam : option BeamEntry) vocab :
  (length (_beamList (add pool beam vocab)) ≤ S (length (_beamList pool)))%nat.
Proof.
  destruct beam as [b|]; [|apply Nat.le_succ_diag_r]. unfold add.
  destruct (convertToStr b vocab) as [b' label].
  destruct (_beams pool !! label); simpl; [rewrite length_alter; lia|].
  case_bool_decide; [lia|]. simpl. rewrite length_app. simpl. lia.
Qed.

Lemma add_nonempty (pool : BeamList) (b : BeamEntry) vocab :
  coherent pool → _string b = None → printable vocab b →
  (0 < length (_beamList (add pool (Some b) vocab)))%nat.
Proof.
  intros [_ Hbeams] Hnone Hprint. unfold add, convertToStr. rewrite Hnone.
  fold (decode vocab (seq b)).
  destruct (_beams pool !! decode vocab (seq b)) as [i|] eqn:E; simpl.
  - destruct (Hbeams _ _ E) as (_ & e & He & _). rewrite length_alter.
    apply lookup_lt_Some in He. lia.
  - case_bool_decide; [done|]. simpl. rewrite length_app. simpl. lia.
Qed.

Lemma extends_length_mono (this : CTCBeamSearch) (row : list num)
    (beam : BeamEntry) (l : list Z) (pool : BeamList) :
  (length (_beamList pool)
   ≤ length (_beamList (fold_left
       (fun allCandidates cIndex =>
          add allCandidates
              (extend beam cIndex (row_at row cIndex)
                      (row_at row (search_blankIndex this)))
              (_vocabulary this)) l pool)))%nat.
Proof.
  revert pool. induction l as [|i l IH]; intros pool; [done|]. simpl.
  etrans; [|apply IH]. apply add_length_mono.
Qed.

Lemma extends_length_le (this : CTCBeamSearch) (row : list num)
    (beam : BeamEntry) (l : list Z) (pool : BeamList) :
  (length (_beamList (fold_left
       (fun allCandidates cIndex =>
          add allCandidates
              (extend beam cIndex (row_at row cIndex)
                      (row_at row (search_blankIndex this)))
              (_vocabulary this)) l pool))
   ≤ length (_beamList pool) + length l)%nat.
Proof.
  revert pool. induction l as [|i l IH]; intros pool; [simpl; lia|]. simpl.
  etrans; [apply IH|]. pose proof (add_length_le pool
    (extend beam i (row_at row i) (row_at row (search_blankIndex this)))
    (_vocabulary this)). lia.
Qed.

Lemma expand_length_mono (this : CTCBeamSearch) (row : list num)
    (pool : BeamList) (beam : BeamEntry) :
  (length (_beamList pool)
   ≤ length (_beamList (expand this row pool beam)))%nat.
Proof.
  unfold expand. etrans; [|apply extends_length_mono]. apply add_length_mono.
Qed.

Lemma empty_label_printable (vocab : Vocabulary) (e : BeamEntry) :
  seq e = [] → printable vocab e.
Proof.
  intros Hseq. unfold printable. rewrite Hseq. unfold Object_prototype.
  intros H. repeat (apply elem_of_cons in H as [H|H]; [discriminate|]).
  by apply elem_of_nil in H.
Qed.

Lemma expand_nonempty (this : CTCBeamSearch) (row : list num)
    (pool : BeamList) (beam : BeamEntry) :
  coherent pool → printable (_vocabulary this) beam →
  (2 ≤ length row)%nat →
  (0 < length (_beamList (expand this row pool beam)))%nat.
Proof.
  intros Hc Hprint Hrow. unfold expand.
  destruct (decide (_last beam = -1)) as [Hlast|Hlast].
  - rewrite (copy_None _ _ _ Hlast).
    change (add pool None (_vocabulary this)) with pool.
    rewrite seqZ_cons by lia. cbn [fold_left].
    eapply Nat.lt_le_trans; [|apply extends_length_mono].
    destruct (extend beam 0 (row_at row 0)
                (row_at row (search_blankIndex this))) as [r|] eqn:E;
      rewrite extend_cases, Hlast in E; simpl in E; [|done].
    injection E as <-.
    apply add_nonempty; [done|done|]. by apply empty_label_printable.
  - destruct (copy_Some beam row (row_at row (search_blankIndex this)) Hlast)
      as (r & Hr & Hseq & _).
    eapply Nat.lt_le_trans; [|apply extends_length_mono].
    rewrite Hr. apply add_nonempty; [done|by eapply copy_fresh|].
    unfold printable. by rewrite Hseq.
Qed.

Lemma pool_after_length_mono (this : CTCBeamSearch) (row : list num)
    (beams : list (option BeamEntry)) (pool : BeamList) :
  (length (_beamList pool)
   ≤ length (_beamList (fold_left
       (fun allCandidates slot =>
          match slot with
          | Some beam => expand this row allCandidates beam
          | None => allCandidates
          end) beams pool)))%nat.
Proof.
  revert pool. induction beams as [|[b|] beams IH]; intros pool; simpl;
    [done| |apply IH].
  etrans; [|apply IH]. apply expand_length_mono.
Qed.

Lemma holds_printable (vocab : Vocabulary) (Q : BeamEntry → Prop)
    (pool : BeamList) (e : BeamEntry) :
  holds vocab Q pool → e ∈ _beamList pool → printable vocab e.
Proof.
  intros [[Hlist Hbeams] Hall] He.
  rewrite Forall_forall in Hall. destruct (Hall e He) as [Hl _].
  apply list_elem_of_lookup in He as [i Hi].
  destruct (Hlist i e Hi) as (l & Hs & Hb).
  destruct (Hbeams l i Hb) as [Hown _]. unfold printable.
  unfold labelled in Hl. rewrite Hs in Hl. by injection Hl as <-.
Qed.

Lemma step_first_defined (this : CTCBeamSearch) (width : Z)
    (e : BeamEntry) (rest : list (option BeamEntry)) (row : list num) :
  1 ≤ width < 2 ^ 32 → (2 ≤ length row)%nat →
  printable (_vocabulary this) e →
  ∃ e' l k, step this width (Some e :: rest) row
            = Normal (Some e' :: (Some <$> l) ++ replicate k None) ∧
            printable (_vocabulary this) e'.
Proof.
  intros Hwidth Hrow Hprint.
  assert (Hvalid : valid_length width = true).
  { unfold valid_length. apply andb_true_intro. split; lia. }
  destruct (step_valid this width (Some e :: rest) row Hvalid)
    as (rev & Hstep & _).
  pose proof (step_Normal _ _ _ _ _ Hstep) as [_ Hrev]. simpl in Hrev.
  set (pool := pool_after this width (Some e :: rest) row) in *.
  assert (Hlen : (0 < length (_beamList pool))%nat).
  { unfold pool, pool_after. simpl.
    eapply Nat.lt_le_trans; [|apply pool_after_length_mono].
    apply expand_nonempty; [apply new_BeamList_coherent|done|done]. }
  assert (Hholds : holds (_vocabulary this) (fun _ => True) pool).
  { apply (pool_after_holds this (fun _ _ => True) (fun _ => True)); try done.
    exact 0%nat. }
  pose proof (Array_sort_perm (_beamList pool)) as Hperm.
  destruct (Array_sort (_beamList pool)) as [|e' sorted] eqn:E.
  { apply Permutation_length in Hperm. simpl in Hperm. lia. }
  destruct (Z.to_nat width) as [|n] eqn:En; [lia|].
  exists e', (take n sorted), (S n - length (_beamList pool))%nat.
  split; [by rewrite Hstep, Hrev|].
  apply (holds_printable _ _ _ _ Hholds). rewrite <- Hperm. left.
Qed.

(** X3: With a beam width from 1 to 2^32 - 1 and rows of at least
    two entries, a search returns its candidates first and empty slots
    after them, and the first slot holds a candidate: the program of
    the README, which reads [results[0]], does not fail. *)
Theorem search_first_defined (this : CTCBeamSearch)
    (logProbs : list (list num)) (width : Z) :
  1 ≤ width < 2 ^ 32 →
  Forall (fun row => (2 ≤ length row)%nat) logProbs →
  ∃ e l k, search this logProbs width
           = Normal (Some e :: (Some <$> l) ++ replicate k None).
Proof.
  intros Hwidth Hrows. unfold search.
  assert (Hroot : printable (_vocabulary this) (new_BeamEntry [] None)).
  { by apply empty_label_printable. }
  revert Hroot. generalize (new_BeamEntry [] None).
  change (@nil (option BeamEntry))
    with ((Some <$> @nil BeamEntry) ++ replicate 0 None).
  generalize (@nil BeamEntry) 0%nat.
  induction Hrows as [|row logProbs Hrow Hrows IH]; intros l k e He.
  - by exists e, l, k.
  - destruct (step_first_defined this width e ((Some <$> l) ++ replicate k None)
                row Hwidth Hrow He) as (e' & l' & k' & Hstep & He').
    simpl. rewrite Hstep. by apply IH.
Qed.

(** X4: A search returns no candidate whose label string is a name
    that every object inherits ("constructor", "toString", ...): [add]
    takes such a label for one it has seen and keeps no entry for it. *)
Theorem search_no_inherited_label (this : CTCBeamSearch)
    (logProbs : list (list num)) (width : Z)
    (beams : list (option BeamEntry)) (e : BeamEntry) :
  search this logProbs width = Normal beams → Some e ∈ beams →
  decode (_vocabulary this) (seq e) ∉ Object_prototype.
Proof.
  intros H He. destruct (decide (logProbs = [])) as [->|Hne].
  { injection H as <-. apply list_elem_of_singleton in He.
    injection He as ->. by apply (empty_label_printable (_vocabulary this)
                (new_BeamEntry [] None)). }
  apply (search_from_last this width logProbs _ beams Hne) in H
    as (beams' & row & Hstep).
  rewrite step_pool_after in Hstep.
  apply (holds_printable _ (fun _ => True)
           (pool_after this width beams' row)).
  - apply (pool_after_holds this (fun _ _ => True) (fun _ => True)); try done.
    exact 0%nat.
  - by eapply sort_elem_of.
Qed.

(** X5: A first row with fewer than two entries empties the beam for
    good: the root has no copy successor and the loop of extends does
    not run, so whatever rows follow, the search returns [width] empty
    slots and no candidate. *)
Theorem search_short_first_row (this : CTCBeamSearch) (row : list num)
    (logProbs : list (list num)) (width : Z) :
  valid_length width = true → (length row ≤ 1)%nat →
  search this (row :: logProbs) width = Normal (replicate (Z.to_nat width) None).
Proof.
  intros Hvalid Hrow. unfold search.
  assert (Hholes : ∀ k row', step this width (replicate k None) row'
                     = Normal (replicate (Z.to_nat width) None)).
  { intros k row'. rewrite step_pool_after.
    change (replicate k None) with ([] ++ replicate k (@None BeamEntry)).
    rewrite (pool_after_holes this width [] k row').
    unfold sort, pool_after. simpl. rewrite Hvalid. unfold set_length.
    by rewrite take_nil, Nat.sub_0_r. }
  assert (Hfirst : step this width [Some (new_BeamEntry [] None)] row
                   = Normal (replicate (Z.to_nat width) None)).
  { rewrite <- (Hholes 0%nat row). rewrite !step_pool_after. f_equal.
    unfold pool_after. simpl. unfold expand.
    rewrite copy_None by done. rewrite seqZ_nil by lia. done. }
  simpl. rewrite Hfirst. clear Hfirst.
  induction logProbs as [|row' logProbs IH]; [done|]. simpl.
  by rewrite Hholes.
Qed.


(** ** The sequences of the candidates *)

Lemma copy_seq (this : BeamEntry) (row : list num) (blank : num) r :
  copy this row blank = Some r →
  seq r = seq this ∧
  pBlank r = (if parent_has_last this
              then num_add (pTotal this) blank
              else num_add (pNonBlank this) blank).
Proof.
  intros H. destruct (decide (_last this = -1)) as [Hlast|Hlast].
  { by rewrite copy_None in H. }
  destruct (copy_Some this row blank Hlast) as (r' & Hr & Hseq & _ & _ & Hb & _).
  rewrite Hr in H. by injection H as <-.
Qed.

(** X6: When no row has more than [n + 1] entries, every index in a
    returned sequence lies in 0 .. n - 1: with [n] the blank index
    (the blank being the last entry of a row) no result contains the
    blank or an index outside the row. *)
Theorem search_indices_in_range (this : CTCBeamSearch)
    (logProbs : list (list num)) (width n : Z)
    (beams : list (option BeamEntry)) (e : BeamEntry) :
  Forall (fun row => Z.of_nat (length row) - 1 ≤ n) logProbs →
  search this logProbs width = Normal beams → Some e ∈ beams →
  Forall (fun i => 0 ≤ i < n) (seq e).
Proof.
  intros Hrows H He.
  refine (proj1 (search_holds this
            (fun _ e => Forall (fun i => 0 ≤ i < n) (seq e))
            (fun row => Z.of_nat (length row) - 1 ≤ n)
            _ _ _ _ width logProbs beams _ Hrows H e He)).
  - intros k b Hb.
    by destruct (convertToStr_fields b (_vocabulary this)) as (-> & _).
  - intros k b e' Hb He' _. by destruct (merge_fields b e') as (_ & _ & _ & -> & _).
  - intros k b row blank r _ Hb [-> _]%copy_seq. done.
  - intros k b row index prob blank r Hrow Hb Hindex.
    rewrite extend_cases. repeat case_match; try done; intros [= <-]; simpl;
      try done; apply Forall_app; (split; [done|]); apply Forall_singleton; lia.
  - rewrite new_BeamEntry_seq. constructor.
Qed.

(** X7: A returned sequence has at most as many labels as the matrix
    has rows: a time step appends at most one label. *)
Theorem search_seq_length (this : CTCBeamSearch)
    (logProbs : list (list num)) (width : Z)
    (beams : list (option BeamEntry)) (e : BeamEntry) :
  search this logProbs width = Normal beams → Some e ∈ beams →
  (length (seq e) ≤ length logProbs)%nat.
Proof.
  intros H He.
  refine (proj1 (search_holds this (fun k e => (length (seq e) ≤ k)%nat)
            (fun _ => True) _ _ _ _ width logProbs beams _ _ H e He)).
  - intros k b Hb.
    by destruct (convertToStr_fields b (_vocabulary this)) as (-> & _).
  - intros k b e' Hb He' _. by destruct (merge_fields b e') as (_ & _ & _ & -> & _).
  - intros k b row blank r _ Hb [-> _]%copy_seq. lia.
  - intros k b row index prob blank r _ Hb Hindex.
    rewrite extend_cases. repeat case_match; try done; intros [= <-]; simpl;
      try lia; rewrite length_app; simpl; lia.
  - rewrite new_BeamEntry_seq. done.
  - by apply Forall_true.
Qed.

(** ** Labels that decode to distinct strings *)

(** X8: In a vocabulary whose indices below [n] print as single
    characters, each as its own, two candidates over these indices
    with empty caches get the same label string exactly when they have
    the same sequence: [add] merges no two different sequences. *)
Theorem convertToStr_distinguishes (v : Vocabulary) (n : Z)
    (e e' : BeamEntry) :
  one_char_labels v n →
  _string e = None → _string e' = None →
  Forall (fun i => 0 ≤ i < n) (seq e) → Forall (fun i => 0 ≤ i < n) (seq e') →
  (convertToStr e v).2 = (convertToStr e' v).2 ↔ seq e = seq e'.
Proof.
  intros Hv He He' Hs Hs'. rewrite !convertToStr_fresh by done. split.
  - by apply (decode_inj v n).
  - by intros ->.
Qed.

(** X9: An index that the vocabulary does not map prints as nothing:
    [convertToStr] does not fail on it, and a candidate with such an
    index in its sequence gets the label string of the sequence
    without it. *)
Theorem convertToStr_unmapped (v : Vocabulary) (index : Z)
    (s1 s2 : list Z) (e e' : BeamEntry) :
  _indexToChar v !! index = None →
  _string e = None → _string e' = None →
  seq e = s1 ++ index :: s2 → seq e' = s1 ++ s2 →
  (convertToStr e v).2 = (convertToStr e' v).2.
Proof.
  intros Hindex He He' Hs Hs'. rewrite !convertToStr_fresh by done.
  rewrite Hs, Hs', !decode_app, decode_cons. unfold index_char. by rewrite Hindex.
Qed.

(** ** The least length of a path *)

Lemma repeats_snoc (s : list Z) (i : Z) :
  repeats (s ++ [i])
  = (repeats s + (if decide (last s = Some i) then 1 else 0))%nat.
Proof.
  induction s as [|x [|y s] IH]; [done| |].
  - simpl. destruct (Z.eqb_spec x i) as [->|Hne].
    + by rewrite decide_True.
    + rewrite decide_False; [done|]. by intros [= ->].
  - change (repeats ((x :: y :: s) ++ [i]))
      with (Nat.add (if Z.eqb x y then 1%nat else 0%nat)
                    (repeats ((y :: s) ++ [i]))).
    rewrite IH.
    change (repeats (x :: y :: s))
      with (Nat.add (if Z.eqb x y then 1%nat else 0%nat) (repeats (y :: s))).
    change (last (x :: y :: s)) with (last (y :: s)). lia.
Qed.

Lemma logSumExp_nonzero (a b : num) :
  strict_eq (logSumExp a b) zero = false →
  strict_eq a zero = false ∨ strict_eq b zero = false.
Proof.
  unfold logSumExp. destruct (strict_eq a zero); [|by left].
  intros H. by right.
Qed.

(** X10: In a vocabulary whose indices below [n] print as single
    characters, each as its own, and for rows of at most [n + 1]
    entries, a returned sequence is no longer than the matrix allows
    for a path: its labels and the blanks that must separate equal
    neighbours together need no more time steps than there are rows. *)
Theorem search_path_length (this : CTCBeamSearch)
    (logProbs : list (list num)) (width n : Z)
    (beams : list (option BeamEntry)) (e : BeamEntry) :
  one_char_labels (_vocabulary this) n →
  Forall (fun row => Z.of_nat (length row) - 1 ≤ n) logProbs →
  search this logProbs width = Normal beams → Some e ∈ beams →
  (path_length (seq e) ≤ length logProbs)%nat.
Proof.
  intros Hv Hrows H He.
  refine (proj1 (proj2 (proj2 (proj1 (search_holds this
            (fun k e => produced e ∧ Forall (fun i => 0 ≤ i < n) (seq e) ∧
                        (path_length (seq e) ≤ k)%nat ∧
                        (strict_eq (pBlank e) zero = false →
                         (path_length (seq e) < k)%nat))
            (fun row => Z.of_nat (length row) - 1 ≤ n)
            _ _ _ _ width logProbs beams _ Hrows H e He))))).
  - intros k b Hb. destruct (convertToStr_fields b (_vocabulary this))
      as (-> & _ & _ & -> & _). split; [|tauto].
    apply produced_convertToStr. tauto.
  - intros k b e' (Hpb & Hrb & Hlb & Hbb) (Hpe & Hre & Hle & Hbe) Hlabel.
    apply (decode_inj _ n) in Hlabel; [|done..].
    destruct (merge_fields b e') as (-> & _ & _ & -> & _).
    split_and!; [by apply produced_merge|done|done|].
    intros [Hnz|Hnz]%logSumExp_nonzero; [|by apply Hbe].
    rewrite <- Hlabel. by apply Hbb.
  - intros k b row blank r _ (Hpb & Hrb & Hlb & Hbb) Hcopy.
    destruct (copy_seq _ _ _ _ Hcopy) as [-> _].
    split_and!; [by eapply produced_copy|done|lia|lia].
  - intros k b row index prob blank r Hrow (Hpb & Hrb & Hlb & Hbb) Hindex Hext.
    split; [eapply produced_extend; [done| |done]; lia|].
    destruct (produced_shape b Hpb) as (Hlast & Hpos & _).
    rewrite extend_cases in Hext.
    destruct ((_last b =? -1) && (index =? 0)).
    { injection Hext as <-. simpl. rewrite strict_eq_zero.
      split_and!; [constructor|unfold path_length; simpl; lia|done]. }
    destruct (Z.eqb_spec index (_last b)) as [Heq|Hne]; simpl in Hext.
    + destruct (strict_eq (pBlank b) zero) eqn:Ez; [done|].
      injection Hext as <-. simpl. rewrite strict_eq_zero.
      split_and!; [apply Forall_app; split; [done|apply Forall_singleton; lia]
                  | |done].
      unfold path_length in *. rewrite length_app, repeats_snoc.
      specialize (Hbb eq_refl). case_decide; simpl; lia.
    + injection Hext as <-. simpl. rewrite strict_eq_zero.
      split_and!; [apply Forall_app; split; [done|apply Forall_singleton; lia]
                  | |done].
      unfold path_length in *. rewrite length_app, repeats_snoc.
      rewrite decide_False; [simpl; lia|]. intros Hl. apply Hne.
      rewrite Hlast. unfold expected_last. by rewrite Hl.
  - rewrite new_BeamEntry_seq.
    destruct (new_BeamEntry_probs [] None) as (_ & -> & _).
    rewrite strict_eq_zero.
    split_and!; [apply produced_root|constructor|done|done].
Qed.

(** ** A copy of a successor *)

(** X11: The copy successor of a copy or extend successor takes the
    whole mass of its parent for its blank-ending mass: both branches
    of the test on [_parent] in [copy] give pTotal + blank on a
    candidate that came straight from copy or extend. *)
Theorem copy_after_successor (this r r' : BeamEntry) (row row' : list num)
    (index : Z) (prob blank blank' : num) :
  produced this →
  copy this row blank = Some r ∨ extend this index prob blank = Some r →
  copy r row' blank' = Some r' →
  pBlank r' = num_add (pTotal r) blank'.
Proof.
  intros Hp Hr Hr'. destruct (copy_seq _ _ _ _ Hr') as [_ ->].
  destruct Hr as [Hr|Hr].
  - destruct (decide (_last this = -1)) as [Hlast|Hlast].
    { by rewrite copy_None in Hr. }
    destruct (copy_Some this row blank Hlast) as (r0 & Hr0 & _ & Hl & _).
    destruct (produced_shape this Hp) as (Hshape & _).
    rewrite expected_last_truthy in Hl by done.
    assert (Hparent : _parent r = Some this).
    { unfold copy in Hr. destruct (_last this =? -1); [done|].
      by injection Hr as <-. }
    rewrite Hr0 in Hr. injection Hr as <-.
    unfold parent_has_last. rewrite Hparent, Hl, <- Hshape.
    by rewrite Z.eqb_refl.
  - rewrite extend_cases in Hr. repeat case_match; try done;
      injection Hr as <-.
    + by rewrite copy_None in Hr'.
    + simpl. by destruct (parent_has_last _).
    + simpl. by destruct (parent_has_last _).
Qed.

(** ** The size of a time step *)

Lemma expand_length_le (this : CTCBeamSearch) (row : list num)
    (pool : BeamList) (beam : BeamEntry) :
  (length (_beamList (expand this row pool beam))
   ≤ length (_beamList pool) + max 1 (length row))%nat.
Proof.
  unfold expand. etrans; [apply extends_length_le|].
  rewrite length_seqZ.
  pose proof (add_length_le pool
    (copy beam row (row_at row (search_blankIndex this))) (_vocabulary this)).
  lia.
Qed.

(** X12: A time step holds at most one candidate per candidate of the
    beam and entry of the row (and one per candidate for an empty
    row): at most [width * row.length] when the beam is full. *)
Theorem pool_after_bound (this : CTCBeamSearch) (width : Z)
    (beams : list (option BeamEntry)) (row : list num) :
  (length (_beamList (pool_after this width beams row))
   ≤ length (candidates beams) * max 1 (length row))%nat.
Proof.
  unfold pool_after.
  change (length (candidates beams) * max 1 (length row))%nat
    with (length (_beamList (new_BeamList width))
          + length (candidates beams) * max 1 (length row))%nat.
  generalize (new_BeamList width).
  induction beams as [|[b|] beams IH]; intros pool; simpl; [lia| |apply IH].
  etrans; [apply IH|]. pose proof (expand_length_le this row pool b). lia.
Qed.

(** ** The beam width *)

(** X13: Two beam widths that no time step exceeds give the same
    candidates in the same order: beyond the number of candidates the
    width only changes the number of empty slots. *)
Theorem search_width_irrelevant (this : CTCBeamSearch)
    (logProbs : list (list num)) (width width' : Z)
    (beams beams' : list (option BeamEntry)) :
  valid_length width = true → valid_length width' = true →
  fits (Z.to_nat width) this [new_BeamEntry [] None] logProbs = true →
  fits (Z.to_nat width') this [new_BeamEntry [] None] logProbs = true →
  search this logProbs width = Normal beams →
  search this logProbs width' = Normal beams' →
  candidates beams = candidates beams'.
Proof.
  intros Hv Hv' Hf Hf' H H'.
  destruct (search_fits this logProbs width Hv Hf) as [k Hk].
  destruct (search_fits this logProbs width' Hv' Hf') as [k' Hk'].
  rewrite Hk in H. rewrite Hk' in H'. injection H as <-. injection H' as <-.
  by rewrite !candidates_holes.
Qed.

(** ** The order of the results *)

(** X14: The candidates come best first: when the comparator is
    consistent on the candidates of the last time step (no total is a
    NaN), no returned candidate has a greater total than one before
    it. *)
Theorem search_sorted (this : CTCBeamSearch) (logProbs : list (list num))
    (row : list num) (width : Z) (beams rev : list (option BeamEntry)) :
  search this logProbs width = Normal beams →
  consistent (_beamList (pool_after this width beams row)) →
  search this (logProbs ++ [row]) width = Normal rev →
  non_increasing (candidates rev).
Proof.
  unfold search. intros H Hc Hrev. rewrite search_from_app, H in Hrev.
  simpl in Hrev.
  destruct (step this width beams row) as [rev'|] eqn:E; [|done].
  injection Hrev as <-. apply step_Normal in E as [_ ->].
  rewrite candidates_holes. apply StronglySorted_non_increasing.
  apply Array_sort_sorted in Hc.
  rewrite <- (take_drop (Z.to_nat width) (Array_sort _)) in Hc.
  by apply StronglySorted_app_1_l in Hc.
Qed.

End Further.

(** * Runs on binary64 numbers *)

(** ** The order of the binary64 numbers

    Every two binary64 numbers are [ordered], unless one is a NaN or
    they are the two zeros 0 and -0: on these numbers [logSumExp] is
    commutative. *)

Lemma SFcompare_antisym (x y : spec_float) :
  SFcompare y x = CompOpp <$> SFcompare x y.
Proof.
  destruct x as [[]|[]| |[] m e], y as [[]|[]| |[] m' e']; try reflexivity;
    simpl; rewrite (Z.compare_antisym e e');
    destruct (e ?= e') eqn:E; try reflexivity; simpl;
    change (Pos.compare_cont Eq m' m) with (m' ?= m)%positive;
    change (Pos.compare_cont Eq m m') with (m ?= m')%positive;
    rewrite (Pos.compare_antisym m m'); by destruct (m ?= m')%positive.
Qed.

Lemma SFcompare_Eq (x y : spec_float) :
  SFcompare x y = Some Eq →
  x = y ∨ (∃ s s', x = S754_zero s ∧ y = S754_zero s').
Proof.
  destruct x as [[]|[]| |[] m e], y as [[]|[]| |[] m' e']; simpl;
    try discriminate; try (by left); try (by right; eauto).
  all: destruct (e ?= e') eqn:E; try discriminate;
    apply Z.compare_eq in E as ->;
    change (Pos.compare_cont Eq m m') with (m ?= m')%positive;
    destruct (m ?= m')%positive eqn:E'; try discriminate;
    apply Pos.compare_eq in E' as ->; by left.
Qed.

Lemma Float64_ordered (a b : float) :
  PrimFloat.is_nan a = false → PrimFloat.is_nan b = false →
  ((a =? 0)%float = true → (b =? 0)%float = true → a = b) →
  ordered (N:=Float64) a b.
Proof.
  unfold PrimFloat.is_nan. intros Ha%negb_false_iff Hb%negb_false_iff Hzero.
  unfold ordered. simpl. rewrite !FloatAxioms.ltb_spec.
  rewrite FloatAxioms.eqb_spec in Ha, Hb. unfold SFltb, SFeqb in *.
  rewrite (SFcompare_antisym (Prim2SF b) (Prim2SF a)).
  split_and!; [done| |].
  - destruct (SFcompare (Prim2SF b) (Prim2SF a)) as [[]|]; done.
  - destruct (SFcompare (Prim2SF b) (Prim2SF a)) as [[]|] eqn:E; try done.
    + intros _ _. apply SFcompare_Eq in E as [E|(s & s' & Eb & Ea)].
      * symmetry. by apply Prim2SF_inj.
      * apply Hzero; rewrite FloatAxioms.eqb_spec; [rewrite Ea|rewrite Eb];
          by destruct s, s'.
    + intros _ _. exfalso.
      destruct (Prim2SF a) as [| | |]; destruct (Prim2SF b) as [| | |];
        try done.
Qed.

(** X15: on binary64 numbers logSumExp is commutative for every two
    arguments of which none is a NaN and which are not the two zeros
    0 and -0: for all log-probabilities, -Infinity included. *)
Lemma logSumExp_comm_Float64 (a b : float) :
  PrimFloat.is_nan a = false → PrimFloat.is_nan b = false →
  ((a =? 0)%float = true → (b =? 0)%float = true → a = b) →
  logSumExp a b = logSumExp b a.
Proof. intros Ha Hb Hzero. by apply logSumExp_comm, Float64_ordered. Qed.

(** ** C1 *)

(** C1 fails as stated: a pool of capacity 3 that was fed one
    candidate (the root extended by b), so one label, sorts to an array
    of 3 slots, not of min(3, 1) = 1; the slots after the first are
    empty. *)
Lemma sort_pads_to_capacity :
  ∃ rev, sort (feed (new_BeamList 3) ONE_CANDIDATE AB_VOCABULARY) = Normal rev ∧
         length rev = 3%nat ∧
         rev !! 1%nat = Some None ∧ rev !! 2%nat = Some None ∧
         labels_seen AB_VOCABULARY ONE_CANDIDATE = ["b"] ∧
         size (list_to_set (labels_seen AB_VOCABULARY ONE_CANDIDATE) : gset string)
         = 1%nat.
Proof.
  eexists. split; [reflexivity|].
  split_and!; [reflexivity|reflexivity|reflexivity|by vm_compute|by vm_compute].
Qed.

(** The condition of C1 is one on the members of the pool, not on the
    candidates fed to it: candidates whose totals are consistently
    ordered may merge into a member whose total is a NaN, since
    logSumExp(-Infinity, -Infinity) is -Infinity + log1p(exp(NaN)). *)
Lemma consistent_inputs_merge_to_NaN :
  consistentb (omap id SHARED_LABEL) = true ∧
  consistentb (_beamList (feed (new_BeamList 4) SHARED_LABEL AB_VOCABULARY))
  = false ∧
  (PrimFloat.is_nan ∘ pTotal)
    <$> _beamList (feed (new_BeamList 4) SHARED_LABEL AB_VOCABULARY)
  = [false; true; false].
Proof. split_and!; by vm_compute. Qed.

Lemma sort_length_order_witness :
  ∃ sorted rev,
    sort (feed (new_BeamList 3) [Some entry_b; Some entry_ba] AB_VOCABULARY)
    = Normal rev ∧
    length rev = 3%nat ∧
    rev = (Some <$> take 3 sorted) ++ replicate (3 - 2) None ∧
    sorted ≡ₚ _beamList (feed (new_BeamList 3) [Some entry_b; Some entry_ba]
                              AB_VOCABULARY) ∧
    length sorted = 2%nat ∧ non_increasing sorted.
Proof.
  apply (sort_length_order (N:=Float64) 3 [Some entry_b; Some entry_ba]
                           AB_VOCABULARY).
  - reflexivity.
  - apply consistentb_consistent. vm_compute. reflexivity.
Defined.

(** ** C2 *)

(** C2 fails as stated: the root extended by index 0, with
    log-probability -1 for the symbol and -Infinity for the blank, has
    pTotal = -1 while logSumExp(pBlank, pNonBlank) = logSumExp(0, 0) = 0. *)
Lemma extend_leading_breaks_equation :
  ∃ r, extend root 0 (-1)%float neg_infinity = Some r ∧
       pTotal r = (-1)%float ∧
       logSumExp (pBlank r) (pNonBlank r) = 0%float ∧
       strict_eq (pTotal r) (logSumExp (pBlank r) (pNonBlank r)) = false.
Proof. eexists. split; [reflexivity|]. by vm_compute. Qed.

Lemma pTotal_equation_witness :
  (∃ r, copy entry_b [(-4)%float; (-5)%float; (-6)%float] (-6)%float = Some r ∧
        pTotal r = logSumExp (pNonBlank r) (pBlank r)) ∧
  (∃ r, extend entry_b 0 (-4)%float (-6)%float = Some r ∧
        pTotal r = logSumExp (pBlank r) (pNonBlank r)) ∧
  (∃ r, extend root 0 (-4)%float (-6)%float = Some r ∧
        pBlank r = 0%float ∧ pNonBlank r = 0%float ∧
        pTotal r = (0 + logSumExp (-4) (-6))%float).
Proof.
  split_and!; eexists; (split; [reflexivity|]).
  - match goal with |- pTotal ?r = _ =>
      destruct (pTotal_equation (N:=Float64) [] None entry_b
                  [(-4)%float; (-5)%float; (-6)%float] 0 (-4)%float
                  (-6)%float r) as (_ & H & _)
    end.
    by apply H.
  - match goal with |- pTotal ?r = _ =>
      destruct (pTotal_equation (N:=Float64) [] None entry_b [] 0
                  (-4)%float (-6)%float r) as (_ & _ & H & _)
    end.
    by apply H.
  - match goal with |- pBlank ?r = _ ∧ _ =>
      destruct (pTotal_equation (N:=Float64) [] None root [] 0
                  (-4)%float (-6)%float r) as (_ & _ & H & _)
    end.
    by apply H.
Defined.

(** ** C4 *)

(** C4 fails as stated: a width of 0, and a row of two numbers for a
    vocabulary of three indices, are both accepted; an empty matrix is
    accepted even with a negative width. *)
Lemma search_accepts_invalid_arguments :
  search AB_SEARCH [[(-1)%float; (-2)%float; (-3)%float]] 0 = Normal [] ∧
  (∃ e, search AB_SEARCH [[(-1)%float; (-2)%float]] 2 = Normal [Some e; None]) ∧
  search AB_SEARCH [] (-1) = Normal [Some root].
Proof.
  split_and!; [reflexivity| |reflexivity].
  eexists. reflexivity.
Qed.

Lemma search_no_validation_witness :
  search AB_SEARCH [] (-1) = Normal [Some (new_BeamEntry [] None)] ∧
  (∃ beams, search AB_SEARCH [[(-1)%float; (-2)%float]] 2 = Normal beams ∧
            length beams = 2%nat) ∧
  search AB_SEARCH [[(-1)%float; (-2)%float]] (-1) = Throw RangeError.
Proof.
  split_and!.
  - by apply (search_no_validation (N:=Float64)).
  - destruct (search_no_validation (N:=Float64) AB_SEARCH
                [[(-1)%float; (-2)%float]] 2) as (_ & H & _).
    destruct (H eq_refl) as (beams & Hs & Hlen).
    exists beams. split; [done|]. by apply Hlen.
  - by apply (search_no_validation (N:=Float64)).
Defined.

(** ** C5 *)

(** C5 fails as stated: a mapping that gives two symbols the index 0,
    with a blank index no symbol has, constructs a vocabulary. *)
Lemma new_Vocabulary_accepts_shared_index :
  ∃ v, new_Vocabulary [("a", 0); ("b", 0)] 7 = Normal v ∧
       _charToIndex v !! "a" = Some 0 ∧ _charToIndex v !! "b" = Some 0 ∧
       _indexToChar v !! 0 = Some "b" ∧ _blankIndex v = 7.
Proof. eexists. split; [reflexivity|]. by vm_compute. Qed.

Lemma new_Vocabulary_succeeds_witness :
  ∃ v, EN_VOCABULARY = Normal v ∧ _blankIndex v = 28 ∧
       (_charToIndex v !! "c" = Some 3 ↔ _indexToChar v !! 3 = Some "c").
Proof.
  destruct (new_Vocabulary_succeeds EN_CHAR_MAP EN_BLANK_INDEX)
    as (v & Hv & Hblank & _ & _ & Hinv).
  exists v. split_and!; [done..|].
  apply Hinv; apply (bool_decide_unpack _); by vm_compute.
Defined.

(** ** C6 *)

(** C6, the failing input: with the blank at index 0 and all mass of
    the one row on b (index 2), the time step extends the root by
    indices 0 and 1 only.  Index 0, the blank itself, goes through the
    leading case and keeps the empty sequence; index 1 gives "a"; no
    candidate is made for index 2. *)
Lemma blank_first_misses_last_label :
  ∃ v beams,
    new_Vocabulary BLANK_FIRST 0 = Normal v ∧
    search (new_CTCBeamSearch v) [all_mass_on 2] 3 = Normal beams ∧
    sequences beams = [Some []; Some [1]; None] ∧
    first_result BLANK_FIRST 0 [all_mass_on 2] 3 = Normal "".
Proof.
  do 2 eexists. split; [reflexivity|]. split; [reflexivity|].
  by vm_compute.
Qed.

(** ** C7, C8, C9, C10 *)

Lemma logSumExp_commutative_identity_witness :
  logSumExp (-1)%float (-2)%float = logSumExp (-2)%float (-1)%float ∧
  logSumExp 0%float (-3)%float = (-3)%float.
Proof.
  apply (logSumExp_commutative_identity (N:=Float64)).
  split_and!; vm_compute; intros; congruence.
Defined.

Lemma extend_same_label_witness :
  extend root (-1) (-5)%float (-7)%float = None ∧
  ∃ r, extend entry_b 1 (-5)%float (-7)%float = Some r ∧
       pNonBlank r = (-3 + -5)%float ∧ pTotal r = (-3 + -5)%float ∧
       seq r = [1; 1].
Proof.
  split.
  - by apply (extend_same_label (N:=Float64) root).
  - by apply (extend_same_label (N:=Float64) entry_b).
Defined.

Lemma copy_successor_witness :
  copy root [(-4)%float; (-5)%float; (-6)%float] (-6)%float = None ∧
  ∃ r, copy entry_b [(-4)%float; (-5)%float; (-6)%float] (-6)%float = Some r ∧
       seq r = [1] ∧ pNonBlank r = (-2 + -5)%float ∧
       pTotal r = logSumExp (pNonBlank r) (pBlank r).
Proof.
  split.
  - by apply (copy_successor (N:=Float64) root).
  - destruct (copy_successor (N:=Float64) entry_b
                [(-4)%float; (-5)%float; (-6)%float] (-6)%float) as [_ H].
    destruct H as (r & Hr & Hs & Hn & Ht & _); [done|].
    exists r. by split_and!.
Defined.

Lemma produced_last_witness :
  ∃ r, extend root 1 (-5)%float (-7)%float = Some r ∧ produced r ∧ _last r = 1.
Proof.
  eexists. split; [reflexivity|].
  assert (produced (N:=Float64)
            (mkBeamEntry [1] (0 + -5)%float 0%float (0 + -5)%float 1 None
                         (Some root))) as H.
  { eapply (produced_extend root 1 (-5)%float (-7)%float);
      [apply produced_root|done|reflexivity]. }
  split; [exact H|]. exact (produced_last _ H).
Defined.

(** ** C3 *)

(** C3 fails as stated: on the matrix with all mass on the path
    a, blank, a, blank, b, blank the first result is not "ab", for any
    of the six ways to index a, b and the blank by 0, 1 and 2. *)
Lemma all_mass_path_is_not_ab :
  first_result [("a", 0); ("b", 1)] 2 (path_matrix 0 1 2) 3 ≠ Normal "ab" ∧
  first_result [("a", 1); ("b", 0)] 2 (path_matrix 1 0 2) 3 ≠ Normal "ab" ∧
  first_result [("a", 0); ("b", 2)] 1 (path_matrix 0 2 1) 3 ≠ Normal "ab" ∧
  first_result [("a", 2); ("b", 0)] 1 (path_matrix 2 0 1) 3 ≠ Normal "ab" ∧
  first_result [("a", 1); ("b", 2)] 0 (path_matrix 1 2 0) 3 ≠ Normal "ab" ∧
  first_result [("a", 2); ("b", 1)] 0 (path_matrix 2 1 0) 3 ≠ Normal "ab".
Proof. split_and!; intros H; vm_compute in H; discriminate. Qed.

(* Splits a hypothesis [x ∈ [a; b; ...]] into its cases. *)
Ltac elem_cases H :=
  repeat (apply elem_of_cons in H as [->|H]); [..|by apply elem_of_nil in H].

(* The program of the README for a width that cuts nothing. *)
Lemma first_result_fits (charToIndex : list (string * Z)) (blankIndex : Z)
    (logProbs : list (list float)) (width : Z) (v : Vocabulary)
    (label : string) :
  new_Vocabulary charToIndex blankIndex = Normal v →
  valid_length width = true →
  fits (Z.to_nat width) (new_CTCBeamSearch v) [root] logProbs = true →
  head_label v (unbounded_from (new_CTCBeamSearch v) [root] logProbs)
  = Some label →
  first_result charToIndex blankIndex logProbs width = Normal label.
Proof.
  intros Hv Hvalid Hfits Hhead. unfold first_result, root in *. rewrite Hv.
  destruct (search_fits (N:=Float64) (new_CTCBeamSearch v) logProbs width
              Hvalid Hfits)
    as (k & ->).
  unfold head_label in Hhead.
  destruct (unbounded_from (N:=Float64) (new_CTCBeamSearch v) _ logProbs)
    as [|e results]; [done|].
  cbn [head fmap option_fmap option_map] in Hhead. injection Hhead as <-.
  reflexivity.
Qed.

(* One indexing of a, b and the blank: the widths up to 21 are run one
   by one; a greater width cuts nothing, as no time step has more than
   21 candidates. *)
Ltac run_all_widths width Hwidth :=
  destruct (decide (width ≤ 21)) as [Hsmall|Hlarge];
  [ assert (width ∈ seqZ 1 21) as Hw by (apply elem_of_seqZ; lia);
    clear Hwidth Hsmall;
    let l := eval vm_compute in (seqZ 1 21) in change (seqZ 1 21) with l in Hw;
    elem_cases Hw; vm_compute; reflexivity
  | eapply first_result_fits;
    [ reflexivity
    | apply andb_true_intro; split; [apply Z.leb_le|apply Z.ltb_lt]; lia
    | apply (fits_mono 21); [lia|vm_compute; reflexivity]
    | vm_compute; reflexivity ] ].

(** In a search that cuts nothing, the first result on the matrix with
    nearly all mass on the path leads the second by more than 3 in the
    log domain, a factor of 20 in probability. *)
Lemma most_mass_path_margin :
  leads_by 3 (unbounded_from (new_CTCBeamSearch BA_VOCABULARY) [root]
                             (near_path_matrix 1 0 2)) = true ∧
  leads_by 3 (unbounded_from AB_SEARCH [root] (near_path_matrix 0 1 2)) = true.
Proof. split; by vm_compute. Qed.

(** C3, as the code has it by design: on the matrix that gives
    probability 0.98 to the symbol of the path
    a, blank, a, blank, b, blank and 0.01 to each other symbol, with
    the blank as the last index, the first result of search is "aab"
    when a is index 1 and b index 0 (two a's that a blank separates
    stay two, case 3 of extend), and "b" when a is index 0 (a leading
    index 0 is merged with the blank, case 1 of extend), for every
    width from 1 up to the greatest array length. *)
Theorem most_mass_path_first_result (width : Z) :
  1 ≤ width < 2 ^ 32 →
  first_result [("a", 1); ("b", 0)] 2 (near_path_matrix 1 0 2) width
  = Normal "aab" ∧
  first_result [("a", 0); ("b", 1)] 2 (near_path_matrix 0 1 2) width
  = Normal "b".
Proof.
  intros Hwidth. change (2 ^ 32) with 4294967296 in Hwidth.
  split; run_all_widths width Hwidth.
Qed.

(* The width 5. *)
Lemma most_mass_path_first_result_witness :
  first_result [("a", 1); ("b", 0)] 2 (near_path_matrix 1 0 2) 5
  = Normal "aab" ∧
  first_result [("a", 0); ("b", 1)] 2 (near_path_matrix 0 1 2) 5
  = Normal "b".
Proof. apply most_mass_path_first_result. lia. Defined.

(** ** The further properties, on a run *)

Lemma search_labels_distinct_witness :
  ∃ beams, search AB_SEARCH ONE_ROW 2 = Normal beams ∧
           NoDup ((fun e => decode AB_VOCABULARY (seq e)) <$> candidates beams) ∧
           NoDup (seq <$> candidates beams) ∧
           Forall (labelled AB_VOCABULARY) (candidates beams).
Proof.
  eexists. split; [reflexivity|].
  destruct (search_labels_distinct (N:=Float64) AB_SEARCH ONE_ROW 2 _ eq_refl)
    as (Hnd & Hseq & Hl).
  split_and!; [exact Hnd|exact Hseq|by apply Hl].
Defined.

Lemma search_no_inherited_label_witness :
  ∃ beams, search AB_SEARCH ONE_ROW 2 = Normal beams ∧
           ∀ e, Some e ∈ beams → decode AB_VOCABULARY (seq e) ∉ Object_prototype.
Proof.
  eexists. split; [reflexivity|]. intros e He.
  eapply (search_no_inherited_label (N:=Float64) AB_SEARCH ONE_ROW 2);
    [|exact He]; reflexivity.
Defined.

Lemma search_first_defined_witness :
  ∃ e l k, search AB_SEARCH ONE_ROW 2
           = Normal (Some e :: (Some <$> l) ++ replicate k None).
Proof.
  apply (search_first_defined (N:=Float64) AB_SEARCH ONE_ROW 2); [lia|].
  repeat constructor.
Defined.

Lemma search_short_first_row_witness :
  search AB_SEARCH ([(-1)%float] :: ONE_ROW) 3
  = Normal (replicate (Z.to_nat 3) None).
Proof.
  apply (search_short_first_row (N:=Float64) AB_SEARCH [(-1)%float] ONE_ROW 3);
    [reflexivity|simpl; lia].
Defined.

Lemma search_indices_in_range_witness :
  ∃ beams, search AB_SEARCH ONE_ROW 2 = Normal beams ∧
           ∀ e, Some e ∈ beams → Forall (fun i => 0 ≤ i < 2) (seq e).
Proof.
  eexists. split; [reflexivity|]. intros e He.
  eapply (search_indices_in_range (N:=Float64) AB_SEARCH ONE_ROW 2 2);
    [repeat constructor| |exact He]; reflexivity.
Defined.

Lemma search_seq_length_witness :
  ∃ beams, search AB_SEARCH ONE_ROW 2 = Normal beams ∧
           ∀ e, Some e ∈ beams → (length (seq e) ≤ 1)%nat.
Proof.
  eexists. split; [reflexivity|]. intros e He.
  eapply (search_seq_length (N:=Float64) AB_SEARCH ONE_ROW 2);
    [|exact He]; reflexivity.
Defined.

Lemma convertToStr_distinguishes_witness :
  ∃ v, EN_VOCABULARY = Normal v ∧
       ((convertToStr (new_BeamEntry [1; 2] None) v).2
        = (convertToStr (new_BeamEntry [2; 1] None) v).2
        ↔ [1; 2] = [2; 1]).
Proof.
  eexists. split; [reflexivity|].
  apply (convertToStr_distinguishes (N:=Float64) _ 28
           (new_BeamEntry [1; 2] None) (new_BeamEntry [2; 1] None)).
  - apply one_char_labelsb_spec. vm_compute. reflexivity.
  - reflexivity.
  - reflexivity.
  - repeat constructor; lia.
  - repeat constructor; lia.
Defined.

Lemma convertToStr_unmapped_witness :
  (convertToStr (new_BeamEntry [0; 5; 1] None) AB_VOCABULARY).2
  = (convertToStr (new_BeamEntry [0; 1] None) AB_VOCABULARY).2.
Proof.
  apply (convertToStr_unmapped (N:=Float64) AB_VOCABULARY 5 [0] [1]);
    [by vm_compute|reflexivity|reflexivity|reflexivity|reflexivity].
Defined.

Lemma search_path_length_witness :
  ∃ beams, search AB_SEARCH ONE_ROW 2 = Normal beams ∧
           ∀ e, Some e ∈ beams → (path_length (seq e) ≤ 1)%nat.
Proof.
  eexists. split; [reflexivity|]. intros e He.
  eapply (search_path_length (N:=Float64) AB_SEARCH ONE_ROW 2 2);
    [apply one_char_labelsb_spec; vm_compute; reflexivity
    |repeat constructor| |exact He]; reflexivity.
Defined.

Lemma copy_after_successor_witness :
  ∃ r r', extend root 1 (-5)%float (-7)%float = Some r ∧
          copy r [(-1)%float; (-2)%float; (-3)%float] (-3)%float = Some r' ∧
          pBlank r' = num_add (pTotal r) (-3)%float.
Proof.
  eexists. eexists. split; [reflexivity|]. split; [reflexivity|].
  apply (copy_after_successor (N:=Float64) root _ _ []
           [(-1)%float; (-2)%float; (-3)%float] 1 (-5)%float (-7)%float
           (-3)%float);
    [apply produced_root|right; reflexivity|reflexivity].
Defined.

Lemma search_width_irrelevant_witness :
  ∃ beams beams', search AB_SEARCH ONE_ROW 3 = Normal beams ∧
                  search AB_SEARCH ONE_ROW 5 = Normal beams' ∧
                  candidates beams = candidates beams'.
Proof.
  eexists. eexists. split; [reflexivity|]. split; [reflexivity|].
  apply (search_width_irrelevant (N:=Float64) AB_SEARCH ONE_ROW 3 5);
    [reflexivity|reflexivity|by vm_compute|by vm_compute
    |reflexivity|reflexivity].
Defined.

Lemma search_sorted_witness :
  ∃ rev, search AB_SEARCH ([] ++ ONE_ROW) 3 = Normal rev ∧
         non_increasing (candidates rev).
Proof.
  eexists. split; [reflexivity|].
  apply (search_sorted (N:=Float64) AB_SEARCH []
           [(-1)%float; (-2)%float; (-3)%float] 3 [Some root]);
    [reflexivity| |reflexivity].
  apply consistentb_consistent. vm_compute. reflexivity.
Defined.

Lemma logSumExp_comm_Float64_witness :
  logSumExp (-1)%float neg_infinity = logSumExp neg_infinity (-1)%float.
Proof. by apply (logSumExp_comm_Float64 (-1)%float neg_infinity). Defined.
